(** * Branch-and-bound coin selection viewer: search engine and trace replay

    A shallow embedding of [src/services/bnbAlgorithm.ts] (the search
    engine [generateScenario]) and of the replay part of the [TreeGraph]
    component ([src/App.tsx], lines 197-428: the tree reconstruction and
    the lineage query [getPathStatus]).

    Conventions of the embedding.
    - The amounts are JavaScript numbers holding integers; they are
      modelled as [Z] (exact integer sums, as the specification asks).
      JavaScript numbers are binary64 values, whose sums are exact as long
      as no sum leaves the range of [-2^53 .. 2^53]: [ExactRange] states
      this of an input, and the theorems about sums assume it.  The module
      [Binary64] embeds the same search over binary64 numbers, to show what
      the code does outside that range.
    - Array indices, depths and step counters are [nat]; the field
      [utxoIndex] is a [Z] because the engine stores [startIndex - 1]
      there, which is [-1] at the root.
    - The mutable variables captured by the closures of [generateScenario]
      ([steps], [candidates], [stepCounter], [foundAnySolution],
      [bestSolutionIndices], [bestSolutionPath]) form the record
      [SearchState], threaded explicitly through [recordStep] and
      [backtrack].
    - The node coordinates [x], [y] of [TreeNode] are floating-point layout
      data and are left out; edges refer to their end points by node id,
      the key of the node in the node map. *)

From stdpp Require Import base numbers list strings gmap pretty sorting.
From Equations Require Import Equations.
From Stdlib Require Floats.PrimFloat Floats.SpecFloat Floats.FloatOps.

Local Open Scope Z_scope.

(** ** Data model ([types.ts]) *)

Record Utxo := mkUtxo {
  utxo_id : string;
  value : Z
}.

Inductive StepType :=
| START | INCLUDE | EXCLUDE | PRUNE_VAL | PRUNE_SUM | SOLUTION | BACKTRACK | COMPLETE.

Record AlgorithmStep := mkStep {
  stepId : nat;
  type : StepType;
  depth : nat;
  utxoIndex : Z;
  currentSelection : list nat;
  currentSum : Z;
  description : string;
  remainingValue : Z;
  path : list bool
}.

Record SolutionCandidate := mkCandidate {
  cand_path : list bool;
  stepIndex : nat;
  cand_value : Z
}.

Inductive Outcome := success | failure.

Record Scenario := mkScenario {
  sc_utxos : list Utxo;
  sc_target : Z;
  sc_steps : list AlgorithmStep;
  outcome : Outcome;
  sc_bestSolutionIndices : option (list nat);
  sc_bestSolutionPath : option (list bool);
  sc_candidates : list SolutionCandidate
}.

#[global] Instance StepType_eq_dec : EqDecision StepType.
Proof. solve_decision. Defined.

#[global] Instance Outcome_eq_dec : EqDecision Outcome.
Proof. solve_decision. Defined.

#[global] Instance Utxo_inhabited : Inhabited Utxo :=
  populate (mkUtxo EmptyString 0).

(** ** The search engine ([bnbAlgorithm.ts]) *)

(** The closure variables of [generateScenario]. *)
Record SearchState := mkState {
  steps : list AlgorithmStep;
  candidates : list SolutionCandidate;
  stepCounter : nat;
  foundAnySolution : bool;
  bestSolutionIndices : option (list nat);
  bestSolutionPath : option (list bool)
}.

Definition initialState : SearchState :=
  mkState [] [] 0%nat false None None.

(** [utxoValues.sort((a, b) => b - a).map((val, idx) => ...)]: a stable
    descending sort, then the numbering of the sorted values. *)
Definition sortDescending (utxoValues : list Z) : list Z :=
  merge_sort (flip Z.le) utxoValues.

Definition prepareUtxos (utxoValues : list Z) : list Utxo :=
  imap (fun idx val => mkUtxo ("utxo-" +:+ pretty idx) val)
       (sortDescending utxoValues).

Section Search.

Variable utxos : list Utxo.
Variable target : Z.
Variable dustThreshold : Z.

(** [getRemainingSum]: the loop [for (i = startIndex; i < utxos.length; i++)
    sum += utxos[i].value].  The sum is exact; the source adds binary64
    numbers, which is the same for an input in [ExactRange]. *)
Definition getRemainingSum (startIndex : nat) : Z :=
  foldl (fun sum u => sum + value u) 0 (drop startIndex utxos).

Definition recordStep (ty : StepType) (depth : nat) (idx : Z)
    (selection : list nat) (sum : Z) (desc : string) (path : list bool)
    (st : SearchState) : SearchState :=
  mkState
    (steps st ++
      [ {| stepId := stepCounter st;
           type := ty;
           depth := depth;
           utxoIndex := idx;
           currentSelection := selection;
           currentSum := sum;
           description := desc;
           remainingValue := getRemainingSum (Z.to_nat (idx + 1));
           path := path |} ])
    (candidates st)
    (S (stepCounter st))
    (foundAnySolution st)
    (bestSolutionIndices st)
    (bestSolutionPath st).

(** The test of line 66:
    [currentSum === target ||
     (currentSum > target && currentSum <= target + dustThreshold)],
    with the exact sum [target + dustThreshold]. *)
Definition isSolution (currentSum : Z) : bool :=
  (currentSum =? target) ||
  ((target <? currentSum) && (currentSum <=? target + dustThreshold)).

(** Lines 67-76: the flag, the best solution and the candidate list are
    updated before the [SOLUTION] step is recorded; the candidate takes the
    value of [stepCounter] at that moment. *)
Definition noteSolution (currentSelection : list nat) (currentSum : Z)
    (path : list bool) (st : SearchState) : SearchState :=
  mkState
    (steps st)
    (candidates st ++ [ mkCandidate path (stepCounter st) currentSum ])
    (stepCounter st)
    true
    (Some currentSelection)
    (Some path).

Definition descSolution (currentSum : Z) : string :=
  "Candidate Solution found! Sum: " +:+ pretty currentSum +:+
  ". Core records this and continues searching for lower waste.".

Definition descBacktrack : string := "End of branch reached. Backtracking.".

Definition descPruneSum (currentSum remaining : Z) : string :=
  "Pruned: Current (" +:+ pretty currentSum +:+ ") + Remaining (" +:+
  pretty remaining +:+ ") < Target (" +:+ pretty target +:+ ")".

Definition descPruneVal (currentSum : Z) : string :=
  "Pruned: Current (" +:+ pretty currentSum +:+ ") exceeds Target + Tolerance".

Definition descInclude (startIndex : nat) (v : Z) : string :=
  "Checking UTXO #" +:+ pretty startIndex +:+ " (" +:+ pretty v +:+
  "): INCLUDED".

Definition descExclude (startIndex : nat) (v : Z) : string :=
  "Backtracking. Now checking UTXO #" +:+ pretty startIndex +:+ " (" +:+
  pretty v +:+ "): EXCLUDED".

(** [backtrack], lines 55-169.  The recursion is on [startIndex], which
    grows by one at each call and is bounded by [utxos.length].  The sums
    and the tests are those of exact integers; [Binary64.backtrack] is the
    same function over the numbers of the program. *)
Equations? backtrack (depth : nat) (currentSelection : list nat)
    (currentSum : Z) (startIndex : nat) (path : list bool)
    (st : SearchState) : SearchState
    by wf (length utxos - startIndex)%nat lt :=
  backtrack depth currentSelection currentSum startIndex path st
    with isSolution currentSum => {
    | true :=
        recordStep SOLUTION depth (Z.of_nat startIndex - 1) currentSelection
          currentSum (descSolution currentSum) path
          (noteSolution currentSelection currentSum path st)
    | false with le_lt_dec (length utxos) startIndex => {
      | left _ :=
          recordStep BACKTRACK depth (Z.of_nat startIndex) currentSelection
            currentSum descBacktrack path st
      | right _ with currentSum + getRemainingSum startIndex <? target => {
        | true :=
            recordStep PRUNE_SUM depth (Z.of_nat startIndex) currentSelection
              currentSum
              (descPruneSum currentSum (getRemainingSum startIndex)) path st
        | false with target + dustThreshold <? currentSum => {
          | true :=
              recordStep PRUNE_VAL depth (Z.of_nat startIndex)
                currentSelection currentSum (descPruneVal currentSum) path st
          | false :=
              backtrack (S depth) currentSelection currentSum (S startIndex)
                (path ++ [false])
                (recordStep EXCLUDE depth (Z.of_nat startIndex)
                   currentSelection currentSum
                   (descExclude startIndex (value (utxos !!! startIndex)))
                   (path ++ [false])
                   (backtrack (S depth) (currentSelection ++ [startIndex])
                      (currentSum + value (utxos !!! startIndex))
                      (S startIndex) (path ++ [true])
                      (recordStep INCLUDE depth (Z.of_nat startIndex)
                         (currentSelection ++ [startIndex])
                         (currentSum + value (utxos !!! startIndex))
                         (descInclude startIndex
                            (value (utxos !!! startIndex)))
                         (path ++ [true]) st)))
          }
        }
      }
    }.
Proof. all: lia. Qed.

(** Lines 171-185: the top-level call, the final [COMPLETE] step and the
    result. *)
Definition descComplete (found : bool) : string :=
  if found then "Search Complete. Best solution returned."
  else "Search Complete. No solution found.".

Definition runSearch : SearchState :=
  let st := backtrack 0 [] 0 0 [] initialState in
  recordStep COMPLETE 0 0 [] 0 (descComplete (foundAnySolution st)) [] st.

Definition toScenario (st : SearchState) : Scenario :=
  {| sc_utxos := utxos;
     sc_target := target;
     sc_steps := steps st;
     outcome := if foundAnySolution st then success else failure;
     sc_bestSolutionIndices := bestSolutionIndices st;
     sc_bestSolutionPath := bestSolutionPath st;
     sc_candidates := candidates st |}.

End Search.

Definition generateScenario (utxoValues : list Z) (target dustThreshold : Z)
    : Scenario :=
  let utxos := prepareUtxos utxoValues in
  toScenario utxos target (runSearch utxos target dustThreshold).

(** ** The search engine over binary64 numbers

    The same code with the amounts as the program has them: [number] is
    the binary64 format, [+] and [-] round to the nearest value (ties to
    even) and [===], [<], [<=] compare as IEEE 754 says.  The description
    of a step is kept as the template of its text with the numbers that
    the source splices in. *)

Module Binary64.

Import PrimFloat.

(** The integer [z] as a number: the nearest binary64 value. *)
Definition ofZ (z : Z) : float :=
  FloatOps.SF2Prim
    (SpecFloat.binary_normalize FloatOps.prec FloatOps.emax z 0 false).

(** The value of a number that holds an integer. *)
Definition exact (f : float) : option Z :=
  match FloatOps.Prim2SF f with
  | SpecFloat.S754_zero _ => Some 0
  | SpecFloat.S754_finite s m e =>
      let sign := if s then -1 else 1 in
      if 0 <=? e then Some (sign * (Z.pos m * 2 ^ e))
      else if Z.pos m mod 2 ^ (- e) =? 0
           then Some (sign * (Z.pos m / 2 ^ (- e)))
           else None
  | _ => None
  end.

Record Utxo := mkUtxo {
  id : string;
  value : float
}.

Inductive Description :=
| DescSolution (currentSum : float)
| DescBacktrack
| DescPruneSum (currentSum remaining target : float)
| DescPruneVal (currentSum : float)
| DescInclude (startIndex : nat) (v : float)
| DescExclude (startIndex : nat) (v : float)
| DescComplete (found : bool).

Record AlgorithmStep := mkStep {
  stepId : nat;
  type : StepType;
  depth : nat;
  utxoIndex : Z;
  currentSelection : list nat;
  currentSum : float;
  description : Description;
  remainingValue : float;
  path : list bool
}.

Record SolutionCandidate := mkCandidate {
  cand_path : list bool;
  stepIndex : nat;
  cand_value : float
}.

Record Scenario := mkScenario {
  sc_utxos : list Utxo;
  sc_target : float;
  sc_steps : list AlgorithmStep;
  outcome : Outcome;
  sc_bestSolutionIndices : option (list nat);
  sc_bestSolutionPath : option (list bool);
  sc_candidates : list SolutionCandidate
}.

Record SearchState := mkState {
  steps : list AlgorithmStep;
  candidates : list SolutionCandidate;
  stepCounter : nat;
  foundAnySolution : bool;
  bestSolutionIndices : option (list nat);
  bestSolutionPath : option (list bool)
}.

Definition initialState : SearchState :=
  mkState [] [] 0%nat false None None.

#[global] Instance Utxo_inhabited : Inhabited Utxo :=
  populate (mkUtxo EmptyString zero).

(** [utxoValues.sort((a, b) => b - a)]: a stable sort; [a], which comes
    first in the input, stays before [b] unless [b - a > 0]. *)
Fixpoint insertSorted (a : float) (l : list float) : list float :=
  match l with
  | [] => [a]
  | b :: l' =>
      if ltb zero (sub b a) then b :: insertSorted a l' else a :: b :: l'
  end.

Definition sortDescending (utxoValues : list float) : list float :=
  foldr insertSorted [] utxoValues.

Definition prepareUtxos (utxoValues : list float) : list Utxo :=
  imap (fun idx val => mkUtxo ("utxo-" +:+ pretty idx) val)
       (sortDescending utxoValues).

Section Search.

Variable utxos : list Utxo.
Variable target : float.
Variable dustThreshold : float.

Definition getRemainingSum (startIndex : nat) : float :=
  foldl (fun sum u => add sum (value u)) zero (drop startIndex utxos).

Definition recordStep (ty : StepType) (depth : nat) (idx : Z)
    (selection : list nat) (sum : float) (desc : Description)
    (path : list bool) (st : SearchState) : SearchState :=
  mkState
    (steps st ++
      [ {| stepId := stepCounter st;
           type := ty;
           depth := depth;
           utxoIndex := idx;
           currentSelection := selection;
           currentSum := sum;
           description := desc;
           remainingValue := getRemainingSum (Z.to_nat (idx + 1));
           path := path |} ])
    (candidates st)
    (S (stepCounter st))
    (foundAnySolution st)
    (bestSolutionIndices st)
    (bestSolutionPath st).

Definition isSolution (currentSum : float) : bool :=
  eqb currentSum target ||
  (ltb target currentSum && leb currentSum (add target dustThreshold)).

Definition noteSolution (currentSelection : list nat) (currentSum : float)
    (path : list bool) (st : SearchState) : SearchState :=
  mkState
    (steps st)
    (candidates st ++ [ mkCandidate path (stepCounter st) currentSum ])
    (stepCounter st)
    true
    (Some currentSelection)
    (Some path).

Equations? backtrack (depth : nat) (currentSelection : list nat)
    (currentSum : float) (startIndex : nat) (path : list bool)
    (st : SearchState) : SearchState
    by wf (length utxos - startIndex)%nat lt :=
  backtrack depth currentSelection currentSum startIndex path st
    with isSolution currentSum => {
    | true :=
        recordStep SOLUTION depth (Z.of_nat startIndex - 1) currentSelection
          currentSum (DescSolution currentSum) path
          (noteSolution currentSelection currentSum path st)
    | false with le_lt_dec (length utxos) startIndex => {
      | left _ :=
          recordStep BACKTRACK depth (Z.of_nat startIndex) currentSelection
            currentSum DescBacktrack path st
      | right _
          with ltb (add currentSum (getRemainingSum startIndex)) target => {
        | true :=
            recordStep PRUNE_SUM depth (Z.of_nat startIndex) currentSelection
              currentSum
              (DescPruneSum currentSum (getRemainingSum startIndex) target)
              path st
        | false with ltb (add target dustThreshold) currentSum => {
          | true :=
              recordStep PRUNE_VAL depth (Z.of_nat startIndex)
                currentSelection currentSum (DescPruneVal currentSum) path st
          | false :=
              backtrack (S depth) currentSelection currentSum (S startIndex)
                (path ++ [false])
                (recordStep EXCLUDE depth (Z.of_nat startIndex)
                   currentSelection currentSum
                   (DescExclude startIndex (value (utxos !!! startIndex)))
                   (path ++ [false])
                   (backtrack (S depth) (currentSelection ++ [startIndex])
                      (add currentSum (value (utxos !!! startIndex)))
                      (S startIndex) (path ++ [true])
                      (recordStep INCLUDE depth (Z.of_nat startIndex)
                         (currentSelection ++ [startIndex])
                         (add currentSum (value (utxos !!! startIndex)))
                         (DescInclude startIndex
                            (value (utxos !!! startIndex)))
                         (path ++ [true]) st)))
          }
        }
      }
    }.
Proof. all: lia. Qed.

Definition runSearch : SearchState :=
  let st := backtrack 0 [] zero 0 [] initialState in
  recordStep COMPLETE 0 0 [] zero (DescComplete (foundAnySolution st)) [] st.

Definition toScenario (st : SearchState) : Scenario :=
  {| sc_utxos := utxos;
     sc_target := target;
     sc_steps := steps st;
     outcome := if foundAnySolution st then success else failure;
     sc_bestSolutionIndices := bestSolutionIndices st;
     sc_bestSolutionPath := bestSolutionPath st;
     sc_candidates := candidates st |}.

End Search.

Definition generateScenario (utxoValues : list float)
    (target dustThreshold : float) : Scenario :=
  let utxos := prepareUtxos utxoValues in
  toScenario utxos target (runSearch utxos target dustThreshold).

(** The search on integers, each taken as the nearest number. *)
Definition generateScenarioZ (utxoValues : list Z) (target tolerance : Z)
    : Scenario :=
  generateScenario (ofZ <$> utxoValues) (ofZ target) (ofZ tolerance).

(** What a step shows, with the sums read back as integers. *)
Definition view (s : AlgorithmStep)
    : StepType * list bool * list nat * option Z * option Z :=
  (type s, path s, currentSelection s,
   exact (currentSum s), exact (remainingValue s)).

End Binary64.

(** ** The trace replay ([TreeGraph], lines 164-309 and 410-428) *)

Inductive NodeStatus := pending | visited | active | pruned | solution.

Record TreeNode := mkNode {
  node_id : string;
  node_path : list bool;
  status : NodeStatus;
  node_type : option StepType
}.

Record TreeEdge := mkEdge {
  edge_id : string;
  source : string;
  edge_target : string;
  direction : bool;
  utxoValue : Z
}.

#[global] Instance NodeStatus_eq_dec : EqDecision NodeStatus.
Proof. solve_decision. Defined.

(** A JavaScript [Map<string, TreeNode>]: the entries and the order in which
    the keys were first set (the order of [values()]).  Updating a node
    object held in the map is an update at its key. *)
Record NodeMap := mkNodeMap {
  nm_entries : gmap string TreeNode;
  nm_order : list string
}.

Definition nm_get (k : string) (m : NodeMap) : option TreeNode :=
  nm_entries m !! k.

Definition nm_has (k : string) (m : NodeMap) : bool :=
  bool_decide (is_Some (nm_entries m !! k)).

Definition nm_set (k : string) (v : TreeNode) (m : NodeMap) : NodeMap :=
  mkNodeMap (<[k := v]> (nm_entries m))
            (if nm_has k m then nm_order m else nm_order m ++ [k]).

Definition nm_values (m : NodeMap) : list TreeNode :=
  omap (fun k => nm_entries m !! k) (nm_order m).

(** [getPathId]: [p.map(b => b ? '1' : '0').join('')]. *)
Definition getPathId (p : list bool) : string :=
  String.concat EmptyString (map (fun b : bool => if b then "1" else "0") p).

Definition withStatus (s : NodeStatus) (n : TreeNode) : TreeNode :=
  mkNode (node_id n) (node_path n) s (node_type n).

Definition withType (t : StepType) (n : TreeNode) : TreeNode :=
  mkNode (node_id n) (node_path n) (status n) (Some t).

Definition isPrune (t : StepType) : bool :=
  bool_decide (t = PRUNE_SUM) || bool_decide (t = PRUNE_VAL).

Section Replay.

Variable stepList : list AlgorithmStep.
Variable currentStepIndex : nat.
Variable utxos : list Utxo.

(** The body of [step.path.forEach((direction, depthIdx) => ...)], lines
    237-275.  The accumulator holds [currentPathArr], the node map and the
    edge list. *)
Definition visitDirection (acc : list bool * NodeMap * list TreeEdge)
    (depthIdx : nat) (direction : bool)
    : list bool * NodeMap * list TreeEdge :=
  let '(currentPathArr, nodeMap, edgeList) := acc in
  let parentId := getPathId currentPathArr in
  let parentNode := nm_get parentId nodeMap in
  let currentPathArr := currentPathArr ++ [direction] in
  let childId := getPathId currentPathArr in
  if nm_has childId nodeMap then (currentPathArr, nodeMap, edgeList)
  else
    let nodeMap' :=
      nm_set childId (mkNode childId currentPathArr visited None) nodeMap in
    match parentNode with
    | Some _ =>
        (currentPathArr, nodeMap',
         edgeList ++
           [ mkEdge (parentId +:+ "->" +:+ childId) parentId childId direction
               (from_option value 0 (utxos !! depthIdx)) ])
    | None => (currentPathArr, nodeMap', edgeList)
    end.

Definition tracePath (p : list bool) (nodeMap : NodeMap)
    (edgeList : list TreeEdge) : NodeMap * list TreeEdge :=
  let '(_, nodeMap', edgeList') :=
    foldl (fun acc x => visitDirection acc x.1 x.2) ([], nodeMap, edgeList)
          (imap pair p) in
  (nodeMap', edgeList').

(** Lines 279-304: the status of the node the step points at. *)
Definition updateNode (i : nat) (step : AlgorithmStep) (node : TreeNode)
    : TreeNode :=
  let node :=
    if (i =? currentStepIndex)%nat then withStatus active node
    else if negb (bool_decide (status node = pruned)) &&
            negb (bool_decide (status node = solution))
         then withStatus visited node
         else node in
  let node :=
    if isPrune (type step) then withStatus pruned node else node in
  let node :=
    if bool_decide (type step = SOLUTION) then withStatus solution node
    else node in
  if (i =? currentStepIndex)%nat then
    if isPrune (type step) then withType (type step) (withStatus pruned node)
    else if bool_decide (type step = SOLUTION)
         then withType (type step) (withStatus solution node)
         else withStatus active node
  else node.

(** One iteration of the loop of line 228. *)
Definition replayStep (i : nat) (step : AlgorithmStep)
    (acc : NodeMap * list TreeEdge) : NodeMap * list TreeEdge :=
  let '(nodeMap, edgeList) := tracePath (path step) acc.1 acc.2 in
  let currentPathId := getPathId (path step) in
  match nm_get currentPathId nodeMap with
  | Some node => (nm_set currentPathId (updateNode i step node) nodeMap, edgeList)
  | None => (nodeMap, edgeList)
  end.

(** [for (let i = 0; i <= currentStepIndex; i++)]: [n] iterations are left
    and [i] is the loop variable.  Reading [steps[i].path] past the end of
    the trace throws, which is the result [None]. *)
Fixpoint replayLoop (n i : nat) (acc : NodeMap * list TreeEdge)
    : option (NodeMap * list TreeEdge) :=
  match n with
  | O => Some acc
  | S n' =>
      match stepList !! i with
      | None => None
      | Some step => replayLoop n' (S i) (replayStep i step acc)
      end
  end.

Definition rootNode : TreeNode := mkNode (getPathId []) [] pending None.

Definition initialTree : NodeMap * list TreeEdge :=
  (nm_set (getPathId []) rootNode (mkNodeMap ∅ []), []).

Definition replay : option (NodeMap * list TreeEdge) :=
  replayLoop (S currentStepIndex) 0 initialTree.

(** The value of the [useMemo] of line 209. *)
Definition buildTree : option (list TreeNode * list TreeEdge) :=
  (fun r => (nm_values r.1, r.2)) <$> replay.

(** The status of the node keyed by path [p] in the reconstruction. *)
Definition nodeStatus (p : list bool) : option NodeStatus :=
  r ← replay; status <$> nm_get (getPathId p) r.1.

End Replay.

(** [isPrefix], lines 411-414. *)
Definition isPrefix (prefix fullPath : list bool) : bool :=
  if bool_decide (length fullPath < length prefix)%nat then false
  else forallb (fun x : nat * bool => bool_decide (fullPath !! x.1 = Some x.2))
               (imap pair prefix).

Inductive PathStatus := best | candidate | none.

#[global] Instance PathStatus_eq_dec : EqDecision PathStatus.
Proof. solve_decision. Defined.

(** The loop [for (const cand of visibleCandidates)] of lines 422-426. *)
Fixpoint scanCandidates (p : list bool) (visible : list SolutionCandidate)
    : PathStatus :=
  match visible with
  | [] => none
  | cand :: rest =>
      if isPrefix p (cand_path cand) &&
         (length p <=? length (cand_path cand))%nat
      then candidate
      else scanCandidates p rest
  end.

(** [getPathStatus], lines 417-428; [bestSolutionPath], [candidates] and
    [currentStepIndex] are the properties of the component. *)
Definition getPathStatus (bestSolutionPath : option (list bool))
    (candidates : list SolutionCandidate) (currentStepIndex : nat)
    (p : list bool) : PathStatus :=
  if match bestSolutionPath with
     | Some b => isPrefix p b && (length p <=? length b)%nat
     | None => false
     end
  then best
  else
    let visibleCandidates :=
      filter (fun c => (stepIndex c <= currentStepIndex)%nat) candidates in
    scanCandidates p visibleCandidates.

(** ** Notions of the specification *)

(** The indices [k] at which a path holds [true]. *)
Definition selectedIndices (p : list bool) : list nat :=
  filter (fun k => p !! k = Some true) (seq 0 (length p)).

(** The sum of the values at the indices [k] where the path holds [true]. *)
Definition selectedSum (utxos : list Utxo) (p : list bool) : Z :=
  foldr Z.add 0 ((fun k => value (utxos !!! k)) <$> selectedIndices p).

(** The input keeps every sum of the search inside [-2^53 .. 2^53], where
    the binary64 numbers of the program hold every integer and add without
    rounding: the absolute values of the values add up to at most [2^53],
    and so do those of target and tolerance. *)
Definition ExactRange (utxoValues : list Z) (target tolerance : Z) : Prop :=
  foldr (fun v acc => Z.abs v + acc) 0 utxoValues <= 2 ^ 53 /\
  Z.abs target + Z.abs tolerance <= 2 ^ 53.

(** Over binary64 numbers: the sum, as an integer, of the values at the
    indices where the path holds [true]. *)
Definition selectedSum64 (utxos : list Binary64.Utxo) (p : list bool)
    : option Z :=
  foldr (fun k acc =>
           v ← Binary64.exact (Binary64.value (utxos !!! k));
           a ← acc;
           Some (v + a))
        (Some 0) (selectedIndices p).

(** The solution test in the words of the specification. *)
Definition solutionCondition (target tolerance sum : Z) : Prop :=
  sum = target \/ (target < sum /\ sum <= target + tolerance).

(** The two prune conditions at a node with sum [sum] whose next value
    index is [nextIndex]. *)
Definition pruneCondition (utxos : list Utxo) (target tolerance : Z)
    (sum : Z) (nextIndex : nat) : Prop :=
  sum + getRemainingSum utxos nextIndex < target \/ sum > target + tolerance.

(** A path is a prefix of another one: it is not longer and the elements
    agree at the shared indices. *)
Definition PathPrefix (p q : list bool) : Prop :=
  (length p <= length q)%nat /\
  forall k, (k < length p)%nat -> p !! k = q !! k.

(** The node path [p] lies on the lineage of the best solution. *)
Definition onBestLineage (bestPath : option (list bool)) (p : list bool)
    : Prop :=
  exists b,
    bestPath = Some b /\ (length p <= length b)%nat /\ PathPrefix p b.

(** The node path [p] lies on the lineage of a candidate recorded at or
    before the cursor [i]. *)
Definition onCandidateLineage (cands : list SolutionCandidate) (i : nat)
    (p : list bool) : Prop :=
  exists c,
    c ∈ cands /\ (stepIndex c <= i)%nat /\
    (length p <= length (cand_path c))%nat /\ PathPrefix p (cand_path c).

(** The status of the node keyed by the path [p] in a node map. *)
Definition statusAt (m : NodeMap) (p : list bool) : option NodeStatus :=
  status <$> nm_get (getPathId p) m.

(** The status [updateNode] leaves in a node, from the kind of the step and
    the status the node had. *)
Definition newStatus (isCursor : bool) (ty : StepType) (old : NodeStatus)
    : NodeStatus :=
  if isPrune ty then pruned
  else if bool_decide (ty = SOLUTION) then solution
  else if isCursor then active
  else match old with
       | pruned => pruned
       | solution => solution
       | _ => visited
       end.

(** The step kinds that close a node for good. *)
Definition isTerminal (ty : StepType) : bool :=
  isPrune ty || bool_decide (ty = SOLUTION).

(** [m'] keeps the nodes of [m] as they are; the nodes it adds are
    [visited]. *)
Definition extends (m m' : NodeMap) : Prop :=
  forall k,
    match nm_get k m with
    | Some n => nm_get k m' = Some n
    | None => forall n, nm_get k m' = Some n -> status n = visited
    end.

(** No step follows a terminal step at the same path. *)
Fixpoint closedTrace (e : list AlgorithmStep) : Prop :=
  match e with
  | [] => True
  | s :: e' =>
      (isTerminal (type s) = true ->
       Forall (fun s' => path s' <> path s) e') /\
      closedTrace e'
  end.

(** ** The decision procedure as a big-step relation

    [Run depth sel sum idx p st st'] reads: the call
    [backtrack(depth, sel, sum, idx, p)] started in closure state [st]
    returns in closure state [st'].  One constructor per return point of
    the source. *)

Section RunRelation.

Variable utxos : list Utxo.
Variable target : Z.
Variable dustThreshold : Z.

Local Abbreviation recordStep := (recordStep utxos).
Local Abbreviation getRemainingSum := (getRemainingSum utxos).
Local Abbreviation isSolution := (isSolution target dustThreshold).
Local Abbreviation backtrack := (backtrack utxos target dustThreshold).

Inductive Run : nat -> list nat -> Z -> nat -> list bool ->
                SearchState -> SearchState -> Prop :=
| Run_solution d sel sum idx p st :
    isSolution sum = true ->
    Run d sel sum idx p st
      (recordStep SOLUTION d (Z.of_nat idx - 1) sel sum (descSolution sum) p
         (noteSolution sel sum p st))
| Run_exhausted d sel sum idx p st :
    isSolution sum = false ->
    (length utxos <= idx)%nat ->
    Run d sel sum idx p st
      (recordStep BACKTRACK d (Z.of_nat idx) sel sum descBacktrack p st)
| Run_prune_sum d sel sum idx p st :
    isSolution sum = false ->
    (idx < length utxos)%nat ->
    sum + getRemainingSum idx < target ->
    Run d sel sum idx p st
      (recordStep PRUNE_SUM d (Z.of_nat idx) sel sum
         (descPruneSum target sum (getRemainingSum idx)) p st)
| Run_prune_val d sel sum idx p st :
    isSolution sum = false ->
    (idx < length utxos)%nat ->
    target <= sum + getRemainingSum idx ->
    target + dustThreshold < sum ->
    Run d sel sum idx p st
      (recordStep PRUNE_VAL d (Z.of_nat idx) sel sum (descPruneVal sum) p st)
| Run_branch d sel sum idx p st st1 st2 :
    isSolution sum = false ->
    (idx < length utxos)%nat ->
    target <= sum + getRemainingSum idx ->
    sum <= target + dustThreshold ->
    Run (S d) (sel ++ [idx]) (sum + value (utxos !!! idx)) (S idx)
      (p ++ [true])
      (recordStep INCLUDE d (Z.of_nat idx) (sel ++ [idx])
         (sum + value (utxos !!! idx))
         (descInclude idx (value (utxos !!! idx))) (p ++ [true]) st)
      st1 ->
    Run (S d) sel sum (S idx) (p ++ [false])
      (recordStep EXCLUDE d (Z.of_nat idx) sel sum
         (descExclude idx (value (utxos !!! idx))) (p ++ [false]) st1)
      st2 ->
    Run d sel sum idx p st st2.

End RunRelation.

(** ** Invariants of the search *)

Section Invariants.

Variable utxos : list Utxo.
Variable target : Z.
Variable dustThreshold : Z.

(** What holds of every step recorded by [backtrack]. *)
Record StepOK (s : AlgorithmStep) : Prop := mkStepOK {
  ok_sum : currentSum s = selectedSum utxos (path s);
  ok_selection : currentSelection s = selectedIndices (path s);
  ok_solution :
    type s = SOLUTION ->
    solutionCondition target dustThreshold (currentSum s);
  ok_branch :
    type s = INCLUDE \/ type s = EXCLUDE ->
    exists parent b,
      path s = parent ++ [b] /\
      utxoIndex s = Z.of_nat (length parent) /\
      ~ pruneCondition utxos target dustThreshold
          (selectedSum utxos parent) (length parent);
  ok_kind : type s <> COMPLETE
}.

(** The candidate [c] points at its [SOLUTION] step of the trace [tr]. *)
Definition candidateRecorded (tr : list AlgorithmStep)
    (c : SolutionCandidate) : Prop :=
  exists s,
    tr !! stepIndex c = Some s /\
    stepId s = stepIndex c /\
    type s = SOLUTION /\
    path s = cand_path c /\
    currentSum s = cand_value c.

(** The best solution is the last candidate, if there is one. *)
Definition bestIsLast (tr : list AlgorithmStep)
    (cands : list SolutionCandidate) (found : bool)
    (bestIndices : option (list nat)) (bestPath : option (list bool))
    : Prop :=
  match last cands with
  | None => found = false /\ bestPath = None /\ bestIndices = None
  | Some c =>
      found = true /\
      bestPath = Some (cand_path c) /\
      bestIndices = currentSelection <$> tr !! stepIndex c
  end.

(** What holds of the closure state between two calls. *)
Record StateOK (st : SearchState) : Prop := mkStateOK {
  ok_counter : stepCounter st = length (steps st);
  ok_candidates : Forall (candidateRecorded (steps st)) (candidates st);
  ok_best :
    bestIsLast (steps st) (candidates st) (foundAnySolution st)
      (bestSolutionIndices st) (bestSolutionPath st)
}.

End Invariants.

(** The depth-first shape of the steps recorded by one call of [backtrack]
    at path [p]: one closing step at [p], or the [INCLUDE] step, the steps
    of the left subtree, the [EXCLUDE] step and the steps of the right
    subtree. *)
Inductive Shape : list bool -> list AlgorithmStep -> Prop :=
| Shape_leaf p s :
    path s = p ->
    type s = SOLUTION \/ type s = BACKTRACK \/
    type s = PRUNE_SUM \/ type s = PRUNE_VAL ->
    Shape p [s]
| Shape_branch p sI eI sX eX :
    type sI = INCLUDE -> path sI = p ++ [true] ->
    Shape (p ++ [true]) eI ->
    type sX = EXCLUDE -> path sX = p ++ [false] ->
    Shape (p ++ [false]) eX ->
    Shape p (sI :: eI ++ sX :: eX).

(** ** Further invariants of the search *)

Section StepKinds.

Variable utxos : list Utxo.
Variable target : Z.
Variable dustThreshold : Z.

(** What the kind of a recorded step says about the node that recorded it:
    where the node sits and which test of [backtrack] sent it there. *)
Definition StepJustified (s : AlgorithmStep) : Prop :=
  match type s with
  | SOLUTION =>
      length (path s) = depth s /\
      utxoIndex s = Z.of_nat (depth s) - 1 /\
      (depth s <= length utxos)%nat /\
      solutionCondition target dustThreshold (currentSum s)
  | BACKTRACK =>
      length (path s) = depth s /\
      utxoIndex s = Z.of_nat (depth s) /\
      depth s = length utxos /\
      ~ solutionCondition target dustThreshold (currentSum s)
  | PRUNE_SUM =>
      length (path s) = depth s /\
      utxoIndex s = Z.of_nat (depth s) /\
      (depth s < length utxos)%nat /\
      ~ solutionCondition target dustThreshold (currentSum s) /\
      currentSum s + getRemainingSum utxos (depth s) < target
  | PRUNE_VAL =>
      length (path s) = depth s /\
      utxoIndex s = Z.of_nat (depth s) /\
      (depth s < length utxos)%nat /\
      ~ solutionCondition target dustThreshold (currentSum s) /\
      target <= currentSum s + getRemainingSum utxos (depth s) /\
      target + dustThreshold < currentSum s
  | INCLUDE =>
      length (path s) = S (depth s) /\
      utxoIndex s = Z.of_nat (depth s) /\
      (depth s < length utxos)%nat /\
      last (path s) = Some true
  | EXCLUDE =>
      length (path s) = S (depth s) /\
      utxoIndex s = Z.of_nat (depth s) /\
      (depth s < length utxos)%nat /\
      last (path s) = Some false
  | START | COMPLETE => False
  end.

End StepKinds.

(** The candidate a [SOLUTION] step gives rise to. *)
Definition candidateOf (s : AlgorithmStep) : SolutionCandidate :=
  mkCandidate (path s) (stepId s) (currentSum s).

(** The bookkeeping of the closure state: the counter is the length of the
    trace, the step ids are the positions, and the candidates are the
    [SOLUTION] steps in the order of the trace. *)
Record TraceOK (st : SearchState) : Prop := mkTraceOK {
  tr_counter : stepCounter st = length (steps st);
  tr_ids : forall i s, steps st !! i = Some s -> stepId s = i;
  tr_candidates :
    candidates st =
    candidateOf <$> filter (fun s => type s = SOLUTION) (steps st)
}.

(** ** Invariants of the reconstruction *)

(** An edge joins the node of some path to the node of that path extended
    by the direction of the edge, and both nodes are in the map. *)
Definition EdgeOK (m : NodeMap) (ed : TreeEdge) : Prop :=
  exists p,
    source ed = getPathId p /\
    edge_target ed = getPathId (p ++ [direction ed]) /\
    edge_id ed = source ed +:+ "->" +:+ edge_target ed /\
    is_Some (nm_get (source ed) m) /\
    is_Some (nm_get (edge_target ed) m).

(** The node map and the edge list form a tree rooted at the empty path:
    the keys are listed once each in insertion order, every node is keyed
    by the id of its path, and there is one edge per node but the root. *)
Record TreeOK (acc : NodeMap * list TreeEdge) : Prop := mkTreeOK {
  tree_root : is_Some (nm_get (getPathId []) acc.1);
  tree_nodup : NoDup (nm_order acc.1);
  tree_dom : forall k, k ∈ nm_order acc.1 <-> is_Some (nm_get k acc.1);
  tree_ids :
    forall k n, nm_get k acc.1 = Some n ->
                node_id n = k /\ k = getPathId (node_path n);
  tree_count : length (nm_order acc.1) = S (length acc.2);
  tree_edges : Forall (EdgeOK acc.1) acc.2
}.

(** No node is [active], and only the root can be [pending]. *)
Definition Quiet (m : NodeMap) : Prop :=
  forall p st,
    statusAt m p = Some st -> st <> active /\ (st = pending -> p = []).

(** ** The playback controls ([Visualizer], lines 15-51 and the control bar) *)

Module Visualizer.

(** The state of the component: [stepIndex] and [isPlaying].  The third
    state variable, [speed], only sets the period of the timer. *)
Record State := mkPlayer {
  stepIndex : Z;
  isPlaying : bool
}.

Definition initial : State := mkPlayer 0 false.

Inductive Event := Tick | PlayToggle | Rewind | SkipBack | SkipForward.

Section Component.

Variable scenario : Scenario.

(** [scenario.steps.length] *)
Definition stepCount : Z := Z.of_nat (length (sc_steps scenario)).

Definition isLastStep (st : State) : bool :=
  stepIndex st =? stepCount - 1.

(** [scenario.steps[stepIndex]] *)
Definition currentStep (st : State) : option AlgorithmStep :=
  if stepIndex st <? 0 then None
  else sc_steps scenario !! Z.to_nat (stepIndex st).

(** The callback of the interval, lines 27-33. *)
Definition tick (st : State) : State :=
  if stepCount - 1 <=? stepIndex st then mkPlayer (stepIndex st) false
  else mkPlayer (stepIndex st + 1) (isPlaying st).

(** [handlePlayToggle], lines 43-51. *)
Definition handlePlayToggle (st : State) : State :=
  if isLastStep st && negb (isPlaying st) then mkPlayer 0 true
  else mkPlayer (stepIndex st) (negb (isPlaying st)).

(** One event of the component.  The interval runs only while [isPlaying]
    holds; the first two buttons are disabled at step 0 and the last one at
    the last step. *)
Definition handle (st : State) (ev : Event) : State :=
  match ev with
  | Tick => if isPlaying st then tick st else st
  | PlayToggle => handlePlayToggle st
  | Rewind =>
      if stepIndex st =? 0 then st else mkPlayer 0 (isPlaying st)
  | SkipBack =>
      if stepIndex st =? 0 then st
      else mkPlayer (Z.max 0 (stepIndex st - 1)) (isPlaying st)
  | SkipForward =>
      if isLastStep st then st
      else mkPlayer (Z.min (stepCount - 1) (stepIndex st + 1)) (isPlaying st)
  end.

Definition run (evs : list Event) : State := foldl handle initial evs.

(** The properties handed to [TreeGraph]. *)
Definition treeBestPath (st : State) : option (list bool) :=
  if isLastStep st && bool_decide (outcome scenario = success)
  then sc_bestSolutionPath scenario
  else None.

Definition treeView (st : State) : option (list TreeNode * list TreeEdge) :=
  buildTree (sc_steps scenario) (Z.to_nat (stepIndex st)) (sc_utxos scenario).

Definition treePathStatus (st : State) (p : list bool) : PathStatus :=
  getPathStatus (treeBestPath st) (sc_candidates scenario)
    (Z.to_nat (stepIndex st)) p.

(** The cursor is inside the trace. *)
Definition InRange (st : State) : Prop :=
  0 <= stepIndex st <= stepCount - 1.

End Component.

End Visualizer.

(** * Properties of the search engine *)

Lemma filter_ext_elem {A} (P1 P2 : A -> Prop)
    `{!forall x, Decision (P1 x), !forall x, Decision (P2 x)} (l : list A) :
  (forall x, x ∈ l -> P1 x <-> P2 x) -> filter P1 l = filter P2 l.
Proof.
  induction l as [|a l IH]; intros Hiff; [done|].
  rewrite !filter_cons, IH.
  - destruct (decide (P1 a)) as [H1|H1], (decide (P2 a)) as [H2|H2];
      try done; exfalso; apply (Hiff a) in H1 || apply (Hiff a) in H2;
      try done; apply list_elem_of_here.
  - intros x Hx. apply Hiff. by apply list_elem_of_further.
Qed.

Lemma selectedIndices_snoc (p : list bool) (b : bool) :
  selectedIndices (p ++ [b]) =
  selectedIndices p ++ (if b then [length p] else []).
Proof.
  unfold selectedIndices.
  rewrite length_app, Nat.add_1_r, seq_S, filter_app. simpl. f_equal.
  - apply filter_ext_elem. intros k Hk.
    apply elem_of_seq in Hk. rewrite lookup_app_l by lia. done.
  - rewrite filter_cons, filter_nil.
    rewrite list_lookup_middle by done.
    destruct b; by case_decide.
Qed.

Lemma selectedSum_snoc utxos (p : list bool) (b : bool) :
  selectedSum utxos (p ++ [b]) =
  selectedSum utxos p + (if b then value (utxos !!! length p) else 0).
Proof.
  unfold selectedSum. rewrite selectedIndices_snoc, fmap_app, foldr_app.
  generalize ((fun k => value (utxos !!! k)) <$> selectedIndices p).
  intros l. destruct b; simpl.
  - induction l as [|x l IH]; simpl; [lia|]. rewrite IH. lia.
  - lia.
Qed.

Lemma isSolution_true target dustThreshold sum :
  isSolution target dustThreshold sum = true <->
  solutionCondition target dustThreshold sum.
Proof.
  unfold isSolution, solutionCondition.
  rewrite orb_true_iff, andb_true_iff, Z.eqb_eq, Z.ltb_lt, Z.leb_le. done.
Qed.

Section SearchFacts.

Variable utxos : list Utxo.
Variable target : Z.
Variable dustThreshold : Z.

Local Abbreviation recordStep := (recordStep utxos).
Local Abbreviation getRemainingSum := (getRemainingSum utxos).
Local Abbreviation isSolution := (isSolution target dustThreshold).
Local Abbreviation backtrack := (backtrack utxos target dustThreshold).
Local Abbreviation Run := (Run utxos target dustThreshold).

Lemma backtrack_Run d sel sum idx p st :
  Run d sel sum idx p st (backtrack d sel sum idx p st).
Proof.
  funelim (backtrack d sel sum idx p st).
  - by apply Run_solution.
  - by apply Run_exhausted.
  - apply Run_prune_sum; [done..|]. by apply Z.ltb_lt.
  - apply Run_prune_val; [done..| |].
    + by apply Z.ltb_ge.
    + by apply Z.ltb_lt.
  - eapply Run_branch; [done | done | | | eassumption | eassumption].
    + by apply Z.ltb_ge.
    + by apply Z.ltb_ge.
Qed.


(** *** Step-local facts *)

Local Abbreviation StepOK := (StepOK utxos target dustThreshold).

Lemma recordStep_Forall (P : AlgorithmStep -> Prop) ty d idx sel sum desc p st :
  Forall P (steps st) ->
  (forall s, type s = ty -> utxoIndex s = idx -> currentSelection s = sel ->
             currentSum s = sum -> path s = p -> P s) ->
  Forall P (steps (recordStep ty d idx sel sum desc p st)).
Proof.
  intros Hall Hnew. simpl. apply Forall_app. split; [done|].
  apply Forall_singleton. by apply Hnew.
Qed.

Lemma leaf_StepOK ty (s : AlgorithmStep) :
  ty <> COMPLETE -> ty <> INCLUDE -> ty <> EXCLUDE ->
  (ty = SOLUTION -> isSolution (currentSum s) = true) ->
  type s = ty ->
  currentSelection s = selectedIndices (path s) ->
  currentSum s = selectedSum utxos (path s) ->
  StepOK s.
Proof.
  intros ? ? ? Hsol Hty ? ?. split; try done.
  - rewrite Hty. intros ->. by apply isSolution_true, Hsol.
  - rewrite Hty. by intros [->| ->].
  - by rewrite Hty.
Qed.

Lemma Run_StepOK d sel sum idx p st st' :
  Run d sel sum idx p st st' ->
  length p = idx -> sum = selectedSum utxos p -> sel = selectedIndices p ->
  Forall StepOK (steps st) -> Forall StepOK (steps st').
Proof.
  induction 1 as [d sel sum idx p st Hsol
                 |d sel sum idx p st Hsol Hend
                 |d sel sum idx p st Hsol Hlt Hsum
                 |d sel sum idx p st Hsol Hlt Hsum Hval
                 |d sel sum idx p st st1 st2 Hsol Hlt Hsum Hval _ IHl _ IHr];
    intros Hlen Hs Hsel Hall.
  1-4: apply recordStep_Forall; [done|];
       intros s Hty _ Hcs Hcsum Hp;
       eapply leaf_StepOK; [..|exact Hty| |]; try done;
       try (by intros _; rewrite Hcsum); by rewrite ?Hcs, ?Hcsum, Hp.
  assert (Hnp : ~ pruneCondition utxos target dustThreshold
                  (selectedSum utxos p) (length p)).
  { unfold pruneCondition. rewrite Hlen, <- Hs. lia. }
  apply IHr.
  - rewrite length_app. simpl. lia.
  - rewrite selectedSum_snoc. lia.
  - rewrite selectedIndices_snoc, app_nil_r. done.
  - apply recordStep_Forall.
    + apply IHl.
      * rewrite length_app. simpl. lia.
      * rewrite selectedSum_snoc, Hlen. lia.
      * rewrite selectedIndices_snoc, Hlen. by f_equal.
      * apply recordStep_Forall; [done|].
        intros s Hty Hidx Hcs Hcsum Hp. split.
        -- rewrite Hcsum, Hp, selectedSum_snoc, Hlen. lia.
        -- rewrite Hcs, Hp, selectedIndices_snoc, Hlen. by f_equal.
        -- by rewrite Hty.
        -- intros _. exists p, true.
           split_and!; [done | by rewrite Hidx, Hlen | done].
        -- by rewrite Hty.
    + intros s Hty Hidx Hcs Hcsum Hp. split.
      * rewrite Hcsum, Hp, selectedSum_snoc. lia.
      * rewrite Hcs, Hp, selectedIndices_snoc, app_nil_r. done.
      * by rewrite Hty.
      * intros _. exists p, false.
        split_and!; [done | by rewrite Hidx, Hlen | done].
      * by rewrite Hty.
Qed.

(** *** Facts about the closure state *)

Lemma candidateRecorded_app tr tr' c :
  candidateRecorded tr c -> candidateRecorded (tr ++ tr') c.
Proof.
  intros (s & Hs & Hrest). exists s. split; [|done].
  rewrite lookup_app_l; [done|]. by eapply lookup_lt_Some.
Qed.

Lemma recordStep_StateOK ty d idx sel sum desc p st :
  StateOK st -> StateOK (recordStep ty d idx sel sum desc p st).
Proof.
  intros [Hc Hcands Hbest]. split; simpl.
  - rewrite length_app. simpl. lia.
  - eapply Forall_impl; [exact Hcands|]. intros c. apply candidateRecorded_app.
  - unfold bestIsLast in *.
    destruct (last (candidates st)) as [c|] eqn:Hlast; [|done].
    destruct Hbest as (? & ? & ->). split_and!; [done..|].
    apply last_Some_elem_of in Hlast.
    rewrite Forall_forall in Hcands.
    destruct (Hcands c Hlast) as (s & Hs & _).
    rewrite lookup_app_l; [done|]. by eapply lookup_lt_Some.
Qed.

Lemma solution_StateOK d idx sel sum desc p st :
  StateOK st ->
  StateOK (recordStep SOLUTION d idx sel sum desc p (noteSolution sel sum p st)).
Proof.
  intros [Hc Hcands Hbest]. split; simpl.
  - rewrite length_app. simpl. lia.
  - apply Forall_app. split.
    + eapply Forall_impl; [exact Hcands|]. intros c. apply candidateRecorded_app.
    + apply Forall_singleton. eexists. simpl. split.
      * rewrite Hc. by apply list_lookup_middle.
      * done.
  - unfold bestIsLast. rewrite last_snoc. simpl. split_and!; [done..|].
    rewrite Hc, list_lookup_middle by done. done.
Qed.

Lemma Run_StateOK d sel sum idx p st st' :
  Run d sel sum idx p st st' -> StateOK st -> StateOK st'.
Proof.
  induction 1; intros Hok;
    auto using recordStep_StateOK, solution_StateOK.
Qed.

Lemma initialState_StateOK : StateOK initialState.
Proof. split; simpl; [done | constructor | done]. Qed.

(** *** The shape of the recorded steps *)

Lemma Run_Shape d sel sum idx p st st' :
  Run d sel sum idx p st st' ->
  exists e, steps st' = steps st ++ e /\ Shape p e.
Proof.
  induction 1 as [d sel sum idx p st Hsol
                 |d sel sum idx p st Hsol Hend
                 |d sel sum idx p st Hsol Hlt Hsum
                 |d sel sum idx p st Hsol Hlt Hsum Hval
                 |d sel sum idx p st st1 st2 Hsol Hlt Hsum Hval _ IHl _ IHr].
  1-4: eexists; split; [reflexivity|]; apply Shape_leaf; simpl; auto.
  destruct IHl as (eI & HeI & HsI). destruct IHr as (eX & HeX & HsX).
  simpl in HeI, HeX. rewrite HeX, HeI, <- !app_assoc. simpl.
  eexists. split; [reflexivity|].
  by apply Shape_branch.
Qed.

(** *** The whole search *)

Lemma runSearch_steps :
  exists e,
    steps (runSearch utxos target dustThreshold) =
      e ++ [ mkStep (length e) COMPLETE 0 0 [] 0
               (descComplete
                  (foundAnySolution (backtrack 0 [] 0 0 [] initialState)))
               (getRemainingSum 1) [] ] /\
    steps (backtrack 0 [] 0 0 [] initialState) = e /\
    Shape [] e /\
    Forall StepOK e /\
    StateOK (backtrack 0 [] 0 0 [] initialState).
Proof.
  pose proof (backtrack_Run 0 [] 0 0 [] initialState) as Hrun.
  pose proof (Run_StateOK _ _ _ _ _ _ _ Hrun initialState_StateOK) as Hok.
  destruct (Run_Shape _ _ _ _ _ _ _ Hrun) as (e & He & Hshape).
  simpl in He. exists e. split_and!; try done.
  - unfold runSearch. simpl. rewrite (ok_counter _ Hok), He. done.
  - rewrite <- He. eapply Run_StepOK; [exact Hrun|done..|constructor].
Qed.

End SearchFacts.

(** The trace of a scenario: the steps of the top-level call, which have
    the depth-first shape and satisfy the invariants, then the final
    [COMPLETE] step. *)
Lemma generateScenario_trace (utxoValues : list Z) (target tolerance : Z) :
  exists e fin,
    sc_steps (generateScenario utxoValues target tolerance) = e ++ [fin] /\
    type fin = COMPLETE /\ path fin = [] /\ currentSum fin = 0 /\
    Shape [] e /\
    Forall (StepOK (prepareUtxos utxoValues) target tolerance) e /\
    Forall (candidateRecorded e)
      (sc_candidates (generateScenario utxoValues target tolerance)) /\
    bestIsLast e
      (sc_candidates (generateScenario utxoValues target tolerance))
      (bool_decide
         (outcome (generateScenario utxoValues target tolerance) = success))
      (sc_bestSolutionIndices (generateScenario utxoValues target tolerance))
      (sc_bestSolutionPath (generateScenario utxoValues target tolerance)).
Proof.
  destruct (runSearch_steps (prepareUtxos utxoValues) target tolerance)
    as (e & He & Hbt & Hshape & Hall & [_ Hcands Hbest]).
  eexists e, _. split; [exact He|].
  rewrite Hbt in Hcands, Hbest.
  split_and!; try done.
  unfold generateScenario, toScenario, runSearch. simpl.
  destruct (foundAnySolution _); done.
Qed.

(** * The claims about the search engine *)

(** C1, as stated, fails on the numbers of the program.  For the single
    value [2^53 + 4], the target [2^53 + 2] and the tolerance 1, the sum
    [target + tolerance] rounds to [2^53 + 4]: the second step of the trace
    is a [SOLUTION] step whose [currentSum] is [2^53 + 4], two above the
    target. *)
Lemma binary64_solution_step_beyond_tolerance :
  exists s,
    Binary64.sc_steps
      (Binary64.generateScenarioZ [9007199254740996] 9007199254740994 1)
      !! 1%nat = Some s /\
    Binary64.type s = SOLUTION /\
    Binary64.exact (Binary64.currentSum s) = Some 9007199254740996 /\
    Binary64.exact (Binary64.ofZ 9007199254740996) = Some 9007199254740996 /\
    Binary64.exact (Binary64.ofZ 9007199254740994) = Some 9007199254740994 /\
    Binary64.exact (Binary64.ofZ 1) = Some 1 /\
    ~ solutionCondition 9007199254740994 1 9007199254740996.
Proof.
  eexists. split; [vm_compute; reflexivity|].
  split_and!; [vm_compute; reflexivity..|].
  unfold solutionCondition. lia.
Qed.

(** C1, amended (solution correctness).  For an input in the exact range,
    in the trace of the scenario produced by [generateScenario], a step of
    kind [SOLUTION] has a [currentSum] equal to the target, or above the
    target and at most the target plus the tolerance. *)
Theorem solution_step_within_tolerance
    (utxoValues : list Z) (target tolerance : Z) (i : nat) (s : AlgorithmStep) :
  ExactRange utxoValues target tolerance ->
  sc_steps (generateScenario utxoValues target tolerance) !! i = Some s ->
  type s = SOLUTION ->
  currentSum s = target \/
  (target < currentSum s /\ currentSum s <= target + tolerance).
Proof.
  intros _ Hi Hty.
  destruct (generateScenario_trace utxoValues target tolerance)
    as (e & fin & He & Hfin & _ & _ & _ & Hall & _).
  rewrite He in Hi.
  apply lookup_snoc_Some in Hi as [[_ Hs]|[_ <-]]; [|congruence].
  rewrite Forall_lookup in Hall.
  by apply (ok_solution _ _ _ _ (Hall _ _ Hs)).
Qed.

Lemma solution_step_within_tolerance_witness :
  exists s,
    sc_steps (generateScenario [60; 50; 25] 110 0) !! 2%nat = Some s /\
    type s = SOLUTION /\
    (currentSum s = 110 \/ (110 < currentSum s /\ currentSum s <= 110 + 0)).
Proof.
  eexists. split; [vm_compute; reflexivity|]. split; [reflexivity|].
  eapply (solution_step_within_tolerance [60; 50; 25] 110 0 2);
    [unfold ExactRange; simpl; lia | vm_compute; reflexivity | reflexivity].
Defined.

(** C2, as stated, fails on the numbers of the program.  For the values
    [2^53, 2, 1, 1] and the target [2^53 + 4], the third step is the
    [INCLUDE] step at the path [[true; true; true]]: its [currentSum] is
    [2^53 + 4], because [(2^53 + 2) + 1] rounds up, while the values at the
    indices 0, 1 and 2 add up to [2^53 + 3]. *)
Lemma binary64_step_sum_differs_from_path :
  exists s,
    Binary64.sc_steps
      (Binary64.generateScenarioZ [9007199254740992; 2; 1; 1]
         9007199254740996 0) !! 2%nat = Some s /\
    Binary64.type s = INCLUDE /\
    Binary64.path s = [true; true; true] /\
    Binary64.exact (Binary64.currentSum s) = Some 9007199254740996 /\
    selectedSum64
      (Binary64.sc_utxos
         (Binary64.generateScenarioZ [9007199254740992; 2; 1; 1]
            9007199254740996 0))
      (Binary64.path s) = Some 9007199254740995.
Proof.
  eexists. split; [vm_compute; reflexivity|].
  split_and!; vm_compute; reflexivity.
Qed.

(** C2, amended (sum invariant).  For an input in the exact range and every
    step of the trace, [currentSum] is the sum of the sorted values at
    exactly the indices where the step's path holds [true]. *)
Theorem step_sum_matches_path
    (utxoValues : list Z) (target tolerance : Z) (i : nat) (s : AlgorithmStep) :
  ExactRange utxoValues target tolerance ->
  sc_steps (generateScenario utxoValues target tolerance) !! i = Some s ->
  currentSum s =
  selectedSum (sc_utxos (generateScenario utxoValues target tolerance)) (path s).
Proof.
  intros _ Hi.
  destruct (generateScenario_trace utxoValues target tolerance)
    as (e & fin & He & _ & Hp & Hsum & _ & Hall & _).
  rewrite He in Hi.
  apply lookup_snoc_Some in Hi as [[_ Hs]|[_ <-]].
  - rewrite Forall_lookup in Hall.
    by apply (ok_sum _ _ _ _ (Hall _ _ Hs)).
  - by rewrite Hp, Hsum.
Qed.

Lemma step_sum_matches_path_witness :
  exists s,
    sc_steps (generateScenario [60; 50; 25] 110 0) !! 1%nat = Some s /\
    path s = [true; true] /\
    currentSum s =
    selectedSum (sc_utxos (generateScenario [60; 50; 25] 110 0)) (path s).
Proof.
  eexists. split; [vm_compute; reflexivity|]. split; [reflexivity|].
  eapply (step_sum_matches_path [60; 50; 25] 110 0 1).
  - unfold ExactRange; simpl; lia.
  - vm_compute; reflexivity.
Defined.

(** C3, as stated, fails.  For the values [60, 50] and the target 10 the
    first step is an [INCLUDE] step whose path is [[true]] and whose
    [currentSum] is 60: at the node identified by that step (its path, its
    sum, the values after index 0 still to consider) the overshoot
    condition [currentSum > target + tolerance] holds. *)
Lemma branch_step_at_pruned_node :
  exists s,
    sc_steps (generateScenario [60; 50] 10 0) !! 0%nat = Some s /\
    type s = INCLUDE /\
    path s = [true] /\
    remainingValue s =
      getRemainingSum (sc_utxos (generateScenario [60; 50] 10 0))
        (length (path s)) /\
    pruneCondition (sc_utxos (generateScenario [60; 50] 10 0)) 10 0
      (currentSum s) (length (path s)).
Proof.
  eexists. split; [vm_compute; reflexivity|].
  split_and!; [reflexivity..|].
  right. vm_compute. reflexivity.
Qed.

(** C3, amended (pruning soundness).  For an input in the exact range, a
    step of kind [INCLUDE] or [EXCLUDE] is recorded by the node at which
    the branch is taken: the node whose path is the step's path without its
    last element, whose sum is the sum selected by that path and whose next
    value index is the step's [utxoIndex].  At that node no prune condition
    holds. *)
Theorem branch_step_parent_not_pruned
    (utxoValues : list Z) (target tolerance : Z) (i : nat) (s : AlgorithmStep) :
  ExactRange utxoValues target tolerance ->
  sc_steps (generateScenario utxoValues target tolerance) !! i = Some s ->
  type s = INCLUDE \/ type s = EXCLUDE ->
  exists parent b,
    path s = parent ++ [b] /\
    utxoIndex s = Z.of_nat (length parent) /\
    ~ pruneCondition (sc_utxos (generateScenario utxoValues target tolerance))
        target tolerance
        (selectedSum (sc_utxos (generateScenario utxoValues target tolerance))
           parent)
        (length parent).
Proof.
  intros _ Hi Hty.
  destruct (generateScenario_trace utxoValues target tolerance)
    as (e & fin & He & Hfin & _ & _ & _ & Hall & _).
  rewrite He in Hi.
  apply lookup_snoc_Some in Hi as [[_ Hs]|[_ <-]].
  - rewrite Forall_lookup in Hall.
    by apply (ok_branch _ _ _ _ (Hall _ _ Hs)).
  - rewrite Hfin in Hty. by destruct Hty.
Qed.

Lemma branch_step_parent_not_pruned_witness :
  exists s,
    sc_steps (generateScenario [60; 50] 10 0) !! 0%nat = Some s /\
    type s = INCLUDE /\
    exists parent b,
      path s = parent ++ [b] /\
      utxoIndex s = Z.of_nat (length parent) /\
      ~ pruneCondition (sc_utxos (generateScenario [60; 50] 10 0)) 10 0
          (selectedSum (sc_utxos (generateScenario [60; 50] 10 0)) parent)
          (length parent).
Proof.
  eexists. split; [vm_compute; reflexivity|]. split; [reflexivity|].
  eapply (branch_step_parent_not_pruned [60; 50] 10 0 0);
    [ unfold ExactRange; simpl; lia
    | vm_compute; reflexivity
    | left; reflexivity ].
Defined.

(** C4 (best solution policy).  The outcome is [success] exactly when the
    candidate list is not empty; then the best path is the path of the last
    candidate and the best indices are the selection of the [SOLUTION] step
    that candidate points at, which is the selection its path describes;
    with no candidate both are undefined. *)
Theorem best_solution_is_last_candidate
    (utxoValues : list Z) (target tolerance : Z) :
  let sc := generateScenario utxoValues target tolerance in
  (outcome sc = success <-> sc_candidates sc <> []) /\
  match last (sc_candidates sc) with
  | Some c =>
      sc_bestSolutionPath sc = Some (cand_path c) /\
      exists s,
        sc_steps sc !! stepIndex c = Some s /\
        type s = SOLUTION /\
        path s = cand_path c /\
        currentSelection s = selectedIndices (cand_path c) /\
        sc_bestSolutionIndices sc = Some (currentSelection s)
  | None =>
      sc_bestSolutionPath sc = None /\ sc_bestSolutionIndices sc = None
  end.
Proof.
  intros sc. subst sc.
  destruct (generateScenario_trace utxoValues target tolerance)
    as (e & fin & He & _ & _ & _ & _ & Hall & Hcands & Hbest).
  unfold bestIsLast in Hbest.
  destruct (last (sc_candidates _)) as [c|] eqn:Hlast.
  - destruct Hbest as (Hfound & Hpath & Hidx).
    apply bool_decide_eq_true in Hfound. split.
    + split; [|done]. intros _ Hnil. by rewrite Hnil in Hlast.
    + split; [done|].
      rewrite Forall_forall in Hcands.
      destruct (Hcands c (last_Some_elem_of _ _ Hlast))
        as (s & Hs & _ & Hty & Hp & _).
      exists s. rewrite He, lookup_app_l by (by eapply lookup_lt_Some).
      rewrite Hs in Hidx. split_and!; try done.
      rewrite Forall_lookup in Hall.
      rewrite <- Hp. by apply (ok_selection _ _ _ _ (Hall _ _ Hs)).
  - destruct Hbest as (Hfound & Hpath & Hidx).
    apply bool_decide_eq_false in Hfound. split; [|done].
    apply last_None in Hlast. by rewrite Hlast.
Qed.

(** The kinds, paths and sums of the trace for the values [60, 50, 25] and
    the target 110. *)
Lemma example3_trace :
  (fun s => (type s, path s, currentSum s)) <$>
    sc_steps (generateScenario [60; 50; 25] 110 0) =
  [ (INCLUDE, [true], 60);
    (INCLUDE, [true; true], 110);
    (SOLUTION, [true; true], 110);
    (EXCLUDE, [true; false], 60);
    (PRUNE_SUM, [true; false], 60);
    (EXCLUDE, [false], 0);
    (PRUNE_SUM, [false], 0);
    (COMPLETE, [], 0) ].
Proof. vm_compute. reflexivity. Qed.

(** C5, as stated, fails: for the values [60, 50, 25] and the target 110
    there is no [SOLUTION] step at the path [[true; true; false]], and no
    candidate with that path. *)
Lemma example3_no_solution_at_depth_three :
  ~ (exists i s,
       sc_steps (generateScenario [60; 50; 25] 110 0) !! i = Some s /\
       type s = SOLUTION /\ path s = [true; true; false]) /\
  ~ (exists c,
       c ∈ sc_candidates (generateScenario [60; 50; 25] 110 0) /\
       cand_path c = [true; true; false]).
Proof.
  split.
  - intros (i & s & Hi & Hty & Hp).
    assert (Hin : (type s, path s, currentSum s) ∈
              (fun s => (type s, path s, currentSum s)) <$>
                sc_steps (generateScenario [60; 50; 25] 110 0)).
    { apply list_elem_of_fmap. exists s. split; [done|].
      by eapply list_elem_of_lookup_2. }
    rewrite example3_trace, Hty, Hp in Hin.
    repeat (apply elem_of_cons in Hin as [Hin|Hin]; [congruence|]).
    by apply elem_of_nil in Hin.
  - intros (c & Hc & Hp).
    assert (Heq : sc_candidates (generateScenario [60; 50; 25] 110 0) =
                  [mkCandidate [true; true] 2 110])
      by (vm_compute; reflexivity).
    rewrite Heq in Hc. apply list_elem_of_singleton in Hc. by subst c.
Qed.

(** C5, amended.  For the values [60, 50, 25] and the target 110 the one
    candidate is found at the path [[true; true]] (60 + 50 = 110), recorded
    by the [SOLUTION] step of index 2; the search then explores the
    subtrees at [[true; false]] and at [[false]], each closed by a
    [PRUNE_SUM] step, before the final [COMPLETE] step. *)
Theorem example3_candidate_and_continuation :
  let sc := generateScenario [60; 50; 25] 110 0 in
  sc_candidates sc = [mkCandidate [true; true] 2 110] /\
  outcome sc = success /\
  sc_bestSolutionPath sc = Some [true; true] /\
  (fun s => (type s, path s)) <$> sc_steps sc =
  [ (INCLUDE, [true]);
    (INCLUDE, [true; true]);
    (SOLUTION, [true; true]);
    (EXCLUDE, [true; false]);
    (PRUNE_SUM, [true; false]);
    (EXCLUDE, [false]);
    (PRUNE_SUM, [false]);
    (COMPLETE, []) ].
Proof. vm_compute. done. Qed.

(** C6 (candidates point at their steps).  For every candidate of the
    scenario, the trace holds at index [stepIndex] a step whose [stepId] is
    that index, whose kind is [SOLUTION], whose path is the candidate's
    path and whose [currentSum] is the candidate's value. *)
Theorem candidate_points_at_solution_step
    (utxoValues : list Z) (target tolerance : Z) (k : nat)
    (c : SolutionCandidate) :
  sc_candidates (generateScenario utxoValues target tolerance) !! k = Some c ->
  exists s,
    sc_steps (generateScenario utxoValues target tolerance) !! stepIndex c
      = Some s /\
    stepId s = stepIndex c /\
    type s = SOLUTION /\
    path s = cand_path c /\
    currentSum s = cand_value c.
Proof.
  intros Hk.
  destruct (generateScenario_trace utxoValues target tolerance)
    as (e & fin & He & _ & _ & _ & _ & _ & Hcands & _).
  rewrite Forall_lookup in Hcands.
  rewrite He. by apply candidateRecorded_app, (Hcands k).
Qed.

Lemma candidate_points_at_solution_step_witness :
  exists s,
    sc_steps (generateScenario [60; 50; 25] 110 0) !! 2%nat = Some s /\
    stepId s = 2%nat /\
    type s = SOLUTION /\
    path s = [true; true] /\
    currentSum s = 110.
Proof.
  exact (candidate_points_at_solution_step [60; 50; 25] 110 0 0
           (mkCandidate [true; true] 2 110) eq_refl).
Defined.

(** The trace of any input ends with its only [COMPLETE] step. *)
Lemma trace_ends_with_single_complete
    (utxoValues : list Z) (target tolerance : Z) :
  exists e fin,
    sc_steps (generateScenario utxoValues target tolerance) = e ++ [fin] /\
    type fin = COMPLETE /\
    Forall (fun s => type s <> COMPLETE) e.
Proof.
  destruct (generateScenario_trace utxoValues target tolerance)
    as (e & fin & He & Hfin & _ & _ & _ & Hall & _).
  exists e, fin. split_and!; [done..|].
  eapply Forall_impl; [exact Hall|]. intros s Hs. apply (ok_kind _ _ _ _ Hs).
Qed.

(** C9 (termination).  For non-negative values, target and tolerance,
    [generateScenario] returns a scenario (it is a total function, defined
    by well-founded recursion on the number of values left), and its trace
    ends with a [COMPLETE] step, the only one of the trace. *)
Theorem search_terminates_with_single_complete
    (utxoValues : list Z) (target tolerance : Z) :
  Forall (fun v => 0 <= v) utxoValues -> 0 <= target -> 0 <= tolerance ->
  exists sc e fin,
    generateScenario utxoValues target tolerance = sc /\
    sc_steps sc = e ++ [fin] /\
    type fin = COMPLETE /\
    Forall (fun s => type s <> COMPLETE) e.
Proof.
  intros _ _ _.
  destruct (trace_ends_with_single_complete utxoValues target tolerance)
    as (e & fin & H).
  by exists (generateScenario utxoValues target tolerance), e, fin.
Qed.

Lemma search_terminates_with_single_complete_witness :
  exists sc e fin,
    generateScenario [60; 50; 25] 110 0 = sc /\
    sc_steps sc = e ++ [fin] /\
    type fin = COMPLETE /\
    Forall (fun s => type s <> COMPLETE) e.
Proof.
  apply (search_terminates_with_single_complete [60; 50; 25] 110 0).
  - repeat constructor; lia.
  - lia.
  - lia.
Defined.

(** C10, as stated, fails: the values [-5, 3] hold a negative value, and
    [generateScenario] still runs the search and returns a scenario whose
    trace holds two steps. *)
Lemma negative_input_is_searched :
  Exists (fun v => v < 0) [-5; 3] /\
  (fun s => (type s, path s)) <$> sc_steps (generateScenario [-5; 3] 3 0) =
  [ (PRUNE_SUM, []); (COMPLETE, []) ] /\
  outcome (generateScenario [-5; 3] 3 0) = failure.
Proof. split; [left; lia|]. vm_compute. done. Qed.

(** C10, amended.  The engine has no input validation and no error path:
    for an input containing a negative value, a negative target or a
    negative tolerance, [generateScenario] returns a scenario as for any
    other input, and its trace ends with the [COMPLETE] step. *)
Theorem negative_input_not_rejected
    (utxoValues : list Z) (target tolerance : Z) :
  Exists (fun v => v < 0) utxoValues \/ target < 0 \/ tolerance < 0 ->
  exists sc e fin,
    generateScenario utxoValues target tolerance = sc /\
    sc_steps sc = e ++ [fin] /\
    type fin = COMPLETE.
Proof.
  intros _.
  destruct (trace_ends_with_single_complete utxoValues target tolerance)
    as (e & fin & He & Hfin & _).
  by exists (generateScenario utxoValues target tolerance), e, fin.
Qed.

Lemma negative_input_not_rejected_witness :
  exists sc e fin,
    generateScenario [-5; 3] 3 0 = sc /\
    sc_steps sc = e ++ [fin] /\
    type fin = COMPLETE.
Proof.
  apply (negative_input_not_rejected [-5; 3] 3 0).
  left. left. lia.
Defined.

(** * Properties of the replay *)

(** ** The lineage query *)

Lemma isPrefix_PathPrefix (p q : list bool) :
  isPrefix p q = true <-> PathPrefix p q.
Proof.
  unfold isPrefix, PathPrefix. case_bool_decide as Hlen.
  - split; [done|]. intros [? _]. lia.
  - rewrite <- Is_true_true, forallb_True, Forall_lookup. split.
    + intros Hall. split; [lia|]. intros k Hk.
      destruct (lookup_lt_is_Some_2 p k Hk) as [b Hb].
      specialize (Hall k (k, b)). rewrite list_lookup_imap, Hb in Hall.
      specialize (Hall eq_refl). apply bool_decide_unpack in Hall.
      cbn in Hall. by rewrite Hb, Hall.
    + intros [_ Hagree] k [k' b] Hkb.
      rewrite list_lookup_imap in Hkb.
      destruct (p !! k) as [b'|] eqn:Hb; [|done].
      simpl in Hkb. injection Hkb as <- <-.
      apply bool_decide_pack. cbn.
      rewrite <- (Hagree k), Hb; [done|]. by eapply lookup_lt_Some.
Qed.

Lemma PathPrefix_prefix_of (p q : list bool) :
  PathPrefix p q <-> p `prefix_of` q.
Proof.
  split.
  - intros [Hlen Hagree]. exists (drop (length p) q).
    rewrite <- (take_drop (length p) q) at 1. f_equal.
    apply list_eq. intros k. destruct (decide (k < length p)%nat).
    + rewrite lookup_take_lt by done. symmetry. by apply Hagree.
    + rewrite lookup_take_ge, lookup_ge_None_2 by lia. done.
  - intros [r ->]. split.
    + rewrite length_app. lia.
    + intros k Hk. by rewrite lookup_app_l.
Qed.

Lemma scanCandidates_candidate (p : list bool) (l : list SolutionCandidate) :
  scanCandidates p l = candidate <->
  exists c, c ∈ l /\
    (length p <= length (cand_path c))%nat /\ PathPrefix p (cand_path c).
Proof.
  induction l as [|c l IH]; simpl.
  - split; [done|]. intros (c & Hc & _). by apply elem_of_nil in Hc.
  - destruct (isPrefix p (cand_path c)) eqn:Hpre; simpl.
    + destruct (Nat.leb_spec (length p) (length (cand_path c))) as [Hle|Hlt].
      * split; [|done]. intros _. exists c.
        split_and!; [apply list_elem_of_here | done |].
        by apply isPrefix_PathPrefix.
      * apply isPrefix_PathPrefix in Hpre as [? _]. lia.
    + rewrite IH. split.
      * intros (c' & Hc' & H). exists c'. split; [|done].
        by apply list_elem_of_further.
      * intros (c' & Hc' & Hlen & Hpp).
        apply elem_of_cons in Hc' as [->|Hc'].
        -- apply isPrefix_PathPrefix in Hpp. congruence.
        -- by exists c'.
Qed.

Lemma scanCandidates_cases (p : list bool) (l : list SolutionCandidate) :
  scanCandidates p l = candidate \/ scanCandidates p l = none.
Proof.
  induction l as [|c l IH]; simpl; [by right|].
  destruct (_ && _); [by left | done].
Qed.

Lemma best_test_onBestLineage (bestPath : option (list bool)) (p : list bool) :
  match bestPath with
  | Some b => isPrefix p b && (length p <=? length b)%nat
  | None => false
  end = true <-> onBestLineage bestPath p.
Proof.
  unfold onBestLineage. destruct bestPath as [b|].
  - rewrite andb_true_iff, isPrefix_PathPrefix, Nat.leb_le. split.
    + intros [? ?]. by exists b.
    + intros (b' & [= <-] & ? & ?). done.
  - split; [done|]. by intros (b & ? & _).
Qed.

(** C7 (lineage classification).  [getPathStatus] answers [best] exactly
    when a best-solution path is provided and the node path is not longer
    than it and is a prefix of it; otherwise it answers [candidate] exactly
    when some candidate recorded at a step index at most the cursor has a
    path that the node path is not longer than and is a prefix of;
    otherwise it answers [none]. *)
Theorem getPathStatus_classification
    (bestPath : option (list bool)) (cands : list SolutionCandidate)
    (i : nat) (p : list bool) :
  (getPathStatus bestPath cands i p = best <-> onBestLineage bestPath p) /\
  (getPathStatus bestPath cands i p = candidate <->
     ~ onBestLineage bestPath p /\ onCandidateLineage cands i p) /\
  (getPathStatus bestPath cands i p = none <->
     ~ onBestLineage bestPath p /\ ~ onCandidateLineage cands i p).
Proof.
  pose proof (best_test_onBestLineage bestPath p) as Hbest.
  assert (Hcand :
    scanCandidates p (filter (fun c => (stepIndex c <= i)%nat) cands)
      = candidate <-> onCandidateLineage cands i p).
  { rewrite scanCandidates_candidate. unfold onCandidateLineage.
    split; intros (c & Hc & H); exists c.
    - apply list_elem_of_filter in Hc as [? ?]. done.
    - split; [|tauto]. apply list_elem_of_filter. tauto. }
  unfold getPathStatus.
  destruct (match bestPath with Some _ => _ | None => _ end).
  - assert (onBestLineage bestPath p) by by apply Hbest.
    split_and!; split; try done; tauto.
  - assert (~ onBestLineage bestPath p) as Hnb.
    { intros H. by apply Hbest in H. }
    destruct (scanCandidates_cases p
                (filter (fun c => (stepIndex c <= i)%nat) cands)) as [Hs|Hs];
      rewrite Hs.
    + assert (onCandidateLineage cands i p) by by apply Hcand.
      split_and!; split; try done; tauto.
    + assert (~ onCandidateLineage cands i p).
      { intros H. apply Hcand in H. congruence. }
      split_and!; split; try done; tauto.
Qed.

(** ** The tree reconstruction *)

Lemma getPathId_cons (b : bool) (p : list bool) :
  getPathId (b :: p) = (if b then "1" else "0") +:+ getPathId p.
Proof. unfold getPathId. destruct p, b; reflexivity. Qed.

#[global] Instance getPathId_inj : Inj (=) (=) getPathId.
Proof.
  intros p. induction p as [|b p IH]; intros [|b' q] Heq.
  - done.
  - rewrite getPathId_cons in Heq. by destruct b'.
  - rewrite getPathId_cons in Heq. by destruct b.
  - rewrite !getPathId_cons in Heq.
    destruct b, b'; cbn in Heq; try discriminate;
      injection Heq as Hrest; by rewrite (IH q Hrest).
Qed.

Lemma updateNode_status cur i step n :
  status (updateNode cur i step n) =
  newStatus (i =? cur)%nat (type step) (status n).
Proof.
  unfold updateNode, newStatus.
  destruct (i =? cur)%nat, (type step), n as [? ? [] ?]; reflexivity.
Qed.

Lemma extends_refl m : extends m m.
Proof. intros k. destruct (nm_get k m) eqn:Hk; [done|]. congruence. Qed.

Lemma extends_trans m1 m2 m3 : extends m1 m2 -> extends m2 m3 -> extends m1 m3.
Proof.
  intros H12 H23 k. specialize (H12 k). specialize (H23 k).
  destruct (nm_get k m1) as [n|].
  - by rewrite H12 in H23.
  - destruct (nm_get k m2) as [n2|] eqn:H2.
    + intros n Hn. rewrite H23 in Hn. injection Hn as <-. by apply H12.
    + done.
Qed.

Lemma visitDirection_extends utxos cur m e d b :
  extends m (visitDirection utxos (cur, m, e) d b).1.2.
Proof.
  unfold visitDirection.
  destruct (nm_has _ m) eqn:Hhas; [apply extends_refl|].
  assert (Hext : extends m
            (nm_set (getPathId (cur ++ [b]))
               (mkNode (getPathId (cur ++ [b])) (cur ++ [b]) visited None) m)).
  { intros k. unfold nm_get, nm_set. simpl.
    destruct (decide (getPathId (cur ++ [b]) = k)) as [<-|Hne].
    - unfold nm_has in Hhas. apply bool_decide_eq_false in Hhas.
      rewrite <- eq_None_not_Some in Hhas. rewrite Hhas.
      intros n. rewrite lookup_insert_eq. by intros [= <-].
    - rewrite lookup_insert_ne by done.
      destruct (nm_entries m !! k); [done | congruence]. }
  by destruct (nm_get _ m).
Qed.

Lemma visit_fold_extends utxos (xs : list (nat * bool)) acc :
  extends acc.1.2
    (foldl (fun acc x => visitDirection utxos acc x.1 x.2) acc xs).1.2.
Proof.
  revert acc. induction xs as [|x xs IH]; intros [[cur m] e]; simpl.
  - apply extends_refl.
  - eapply extends_trans; [|apply IH]. apply visitDirection_extends.
Qed.

Lemma tracePath_extends utxos p m e : extends m (tracePath utxos p m e).1.
Proof.
  unfold tracePath.
  pose proof (visit_fold_extends utxos (imap pair p) ([], m, e)) as H.
  by destruct (foldl _ _ _) as [[? ?] ?].
Qed.

Lemma replayStep_get cur utxos i step acc k :
  nm_get k (replayStep cur utxos i step acc).1 =
  if decide (k = getPathId (path step))
  then updateNode cur i step <$> nm_get k (tracePath utxos (path step) acc.1 acc.2).1
  else nm_get k (tracePath utxos (path step) acc.1 acc.2).1.
Proof.
  unfold replayStep.
  destruct (tracePath utxos (path step) acc.1 acc.2) as [m1 e1]. simpl.
  destruct (nm_get (getPathId (path step)) m1) as [node|] eqn:Hnode; simpl.
  - unfold nm_get, nm_set in *. simpl. case_decide as Hk.
    + subst k. by rewrite lookup_insert_eq, Hnode.
    + by rewrite lookup_insert_ne.
  - case_decide as Hk; [|done]. subst k. by rewrite Hnode.
Qed.

(** A step that points elsewhere leaves the status of a node as it is. *)
Lemma replayStep_elsewhere cur utxos i step acc p st :
  path step <> p ->
  statusAt acc.1 p = Some st ->
  statusAt (replayStep cur utxos i step acc).1 p = Some st.
Proof.
  unfold statusAt. intros Hne Hst.
  rewrite replayStep_get.
  rewrite decide_False by (intros Heq; apply Hne; by apply (inj getPathId)).
  pose proof (tracePath_extends utxos (path step) acc.1 acc.2 (getPathId p))
    as Hext.
  destruct (nm_get (getPathId p) acc.1) as [n|]; [|done].
  by rewrite Hext.
Qed.

Lemma replayStep_elsewhere_inv cur utxos i step acc p st :
  path step <> p ->
  statusAt (replayStep cur utxos i step acc).1 p = Some st ->
  st <> visited ->
  statusAt acc.1 p = Some st.
Proof.
  unfold statusAt. intros Hne Hst Hnv.
  rewrite replayStep_get in Hst.
  rewrite decide_False in Hst
    by (intros Heq; apply Hne; by apply (inj getPathId)).
  pose proof (tracePath_extends utxos (path step) acc.1 acc.2 (getPathId p))
    as Hext.
  destruct (nm_get (getPathId p) acc.1) as [n|].
  - by rewrite Hext in Hst.
  - destruct (nm_get _ (tracePath _ _ _ _).1) as [n|]; [|done].
    simpl in Hst. injection Hst as <-. by rewrite (Hext n eq_refl) in Hnv.
Qed.

(** A step that points at a node sets its status by [newStatus]. *)
Lemma replayStep_here cur utxos i step acc st :
  statusAt (replayStep cur utxos i step acc).1 (path step) = Some st ->
  exists old,
    st = newStatus (i =? cur)%nat (type step) old /\
    (statusAt acc.1 (path step) = Some old \/
     (statusAt acc.1 (path step) = None /\ old = visited)).
Proof.
  unfold statusAt. intros Hst.
  rewrite replayStep_get, decide_True in Hst by done.
  pose proof (tracePath_extends utxos (path step) acc.1 acc.2
                (getPathId (path step))) as Hext.
  destruct (nm_get _ (tracePath _ _ _ _).1) as [n|] eqn:Hn; [|done].
  simpl in Hst. injection Hst as <-. exists (status n).
  split; [apply updateNode_status|].
  destruct (nm_get (getPathId (path step)) acc.1) as [n0|].
  - left. by injection Hext as ->.
  - right. split; [done|]. by apply Hext.
Qed.

Lemma replayStep_here_known cur utxos i step acc old :
  statusAt acc.1 (path step) = Some old ->
  statusAt (replayStep cur utxos i step acc).1 (path step) =
  Some (newStatus (i =? cur)%nat (type step) old).
Proof.
  unfold statusAt. intros Hold.
  rewrite replayStep_get, decide_True by done.
  pose proof (tracePath_extends utxos (path step) acc.1 acc.2
                (getPathId (path step))) as Hext.
  destruct (nm_get (getPathId (path step)) acc.1) as [n0|]; [|done].
  rewrite Hext. simpl. rewrite updateNode_status.
  by injection Hold as <-.
Qed.

Lemma replayStep_here_eq cur utxos i step acc :
  statusAt (replayStep cur utxos i step acc).1 (path step) =
  (fun n => newStatus (i =? cur)%nat (type step) (status n)) <$>
    nm_get (getPathId (path step)) (tracePath utxos (path step) acc.1 acc.2).1.
Proof.
  unfold statusAt. rewrite replayStep_get, decide_True by done.
  destruct (nm_get _ (tracePath _ _ _ _).1) as [n|]; [|done].
  simpl. by rewrite updateNode_status.
Qed.

Lemma replayStep_cursor_irrelevant cur cur' utxos i step acc :
  i <> cur -> i <> cur' ->
  replayStep cur utxos i step acc = replayStep cur' utxos i step acc.
Proof.
  intros Hc Hc'. unfold replayStep, updateNode.
  apply Nat.eqb_neq in Hc, Hc'. by rewrite Hc, Hc'.
Qed.

(** *** What [newStatus] does to the terminal statuses *)

Lemma newStatus_terminal_kind b ty old :
  isTerminal ty = true ->
  newStatus b ty old = if isPrune ty then pruned else solution.
Proof.
  unfold isTerminal, newStatus. destruct (isPrune ty); [done|].
  simpl. by intros ->.
Qed.

Lemma newStatus_cursor_terminal ty old st :
  newStatus true ty old = st -> st = pruned \/ st = solution ->
  isTerminal ty = true.
Proof.
  unfold isTerminal, newStatus.
  destruct (isPrune ty); [done|]. destruct (bool_decide _); [done|].
  intros <- [?|?]; discriminate.
Qed.

Lemma newStatus_passive_terminal ty old st :
  newStatus false ty old = st -> st = pruned \/ st = solution ->
  isTerminal ty = true \/ old = st.
Proof.
  unfold isTerminal, newStatus.
  destruct (isPrune ty); [by left|]. destruct (bool_decide _); [by left|].
  intros <- Hst. right. destruct old, Hst; done.
Qed.

Lemma newStatus_cursor_other ty old :
  isTerminal ty = false -> newStatus true ty old = active.
Proof.
  unfold isTerminal, newStatus.
  destruct (isPrune ty); [done|]. by destruct (bool_decide _).
Qed.

(** *** The loop *)

Section ReplayLoop.

Variable stepList : list AlgorithmStep.
Variable utxos : list Utxo.

Local Abbreviation loop cur := (replayLoop stepList cur utxos).

Lemma replayLoop_split cur n m i acc :
  loop cur (n + m)%nat i acc = loop cur n i acc ≫= loop cur m (i + n)%nat.
Proof.
  revert i acc. induction n as [|n IH]; intros i acc; simpl.
  - by rewrite Nat.add_0_r.
  - destruct (stepList !! i) as [step|]; [|done].
    rewrite IH. by replace (S i + n)%nat with (i + S n)%nat by lia.
Qed.

Lemma replayLoop_cursor_irrelevant cur cur' n i acc :
  (forall k, (i <= k < i + n)%nat -> k <> cur /\ k <> cur') ->
  loop cur n i acc = loop cur' n i acc.
Proof.
  revert i acc. induction n as [|n IH]; intros i acc Hk; simpl; [done|].
  destruct (stepList !! i) as [step|]; [|done].
  rewrite (replayStep_cursor_irrelevant cur cur') by (apply Hk; lia).
  apply IH. intros k ?. apply Hk. lia.
Qed.

Lemma replayLoop_defined cur n i acc :
  (i + n <= length stepList)%nat -> is_Some (loop cur n i acc).
Proof.
  revert i acc. induction n as [|n IH]; intros i acc Hlen; simpl; [done|].
  destruct (lookup_lt_is_Some_2 stepList i) as [step ->]; [lia|].
  apply IH. lia.
Qed.

Lemma replayLoop_preserves cur n i acc acc' p st :
  loop cur n i acc = Some acc' ->
  statusAt acc.1 p = Some st ->
  (forall k s, (i <= k < i + n)%nat -> stepList !! k = Some s -> path s <> p) ->
  statusAt acc'.1 p = Some st.
Proof.
  revert i acc. induction n as [|n IH]; intros i acc Hloop Hst Hne; simpl in *.
  - by injection Hloop as <-.
  - destruct (stepList !! i) as [step|] eqn:Hi; [|done].
    eapply IH; [exact Hloop| |].
    + apply replayStep_elsewhere; [|done]. apply (Hne i); [lia|done].
    + intros k s ? ?. apply (Hne k); [lia|done].
Qed.

Lemma replayLoop_terminal_source cur n i acc acc' p st :
  (i + n <= cur)%nat ->
  loop cur n i acc = Some acc' ->
  statusAt acc'.1 p = Some st ->
  st = pruned \/ st = solution ->
  statusAt acc.1 p = Some st \/
  exists k s,
    (i <= k < i + n)%nat /\ stepList !! k = Some s /\
    path s = p /\ isTerminal (type s) = true.
Proof.
  revert i acc. induction n as [|n IH]; intros i acc Hcur Hloop Hst Hterm;
    simpl in *.
  - left. by injection Hloop as <-.
  - destruct (stepList !! i) as [step|] eqn:Hi; [|done].
    destruct (IH (S i) _ ltac:(lia) Hloop Hst Hterm)
      as [Hhere|(k & s & Hk & Hs & Hp & Hty)].
    + destruct (decide (path step = p)) as [<-|Hne].
      * apply replayStep_here in Hhere as (old & Hnew & Hold).
        replace (i =? cur)%nat with false in Hnew
          by (symmetry; apply Nat.eqb_neq; lia).
        symmetry in Hnew.
        destruct (newStatus_passive_terminal _ _ _ Hnew Hterm) as [Hty| ->].
        -- right. exists i, step. split_and!; [lia..|done|done|done].
        -- destruct Hold as [?|[_ ->]]; [by left|]. by destruct Hterm.
      * left. eapply replayStep_elsewhere_inv; [done..|].
        by destruct Hterm as [-> | ->].
    + right. exists k, s. split_and!; [lia..|done|done|done].
Qed.

End ReplayLoop.

(** *** Generated traces do not come back to a closed node *)

Lemma closedTrace_app a b :
  closedTrace a -> closedTrace b ->
  (forall s, s ∈ a -> isTerminal (type s) = true ->
             Forall (fun s' => path s' <> path s) b) ->
  closedTrace (a ++ b).
Proof.
  induction a as [|x a IH]; intros Ha Hb Hcross; simpl; [done|].
  destruct Ha as [Hx Ha]. split.
  - intros Hty. apply Forall_app. split; [by apply Hx|].
    apply Hcross; [apply list_elem_of_here | done].
  - apply IH; [done..|]. intros s Hs. apply Hcross.
    by apply list_elem_of_further.
Qed.

Lemma closedTrace_lookup e k k' s s' :
  closedTrace e ->
  e !! k = Some s -> isTerminal (type s) = true ->
  (k < k')%nat -> e !! k' = Some s' ->
  path s' <> path s.
Proof.
  revert k k'. induction e as [|x e IH]; intros k k' Hc Hk Hty Hlt Hk';
    [done|].
  destruct Hc as [Hx He]. destruct k' as [|k']; [lia|]. destruct k as [|k]; simpl in *.
  - injection Hk as ->. specialize (Hx Hty).
    rewrite Forall_lookup in Hx. by eapply Hx.
  - eapply (IH k k'); [done..|lia|done].
Qed.

Lemma Shape_prefix p e :
  Shape p e -> Forall (fun s => p `prefix_of` path s) e.
Proof.
  induction 1 as [p s Hp _|p sI eI sX eX _ HpI _ IHI _ HpX _ IHX].
  - apply Forall_singleton. by rewrite Hp.
  - assert (Hweak : forall b (l : list AlgorithmStep),
              Forall (fun s => (p ++ [b]) `prefix_of` path s) l ->
              Forall (fun s => p `prefix_of` path s) l).
    { intros b l Hl. eapply Forall_impl; [exact Hl|]. intros s Hs.
      etrans; [|exact Hs]. by apply prefix_app_r. }
    constructor; [rewrite HpI; by apply prefix_app_r|].
    apply Forall_app. split; [by eapply Hweak|].
    constructor; [rewrite HpX; by apply prefix_app_r|]. by eapply Hweak.
Qed.

Lemma sibling_paths_differ (p q q' : list bool) :
  (p ++ [true]) `prefix_of` q -> (p ++ [false]) `prefix_of` q' -> q <> q'.
Proof.
  intros [r ->] [r' ->] Heq. rewrite <- !app_assoc in Heq.
  apply app_inv_head in Heq. discriminate.
Qed.

Lemma Shape_closedTrace p e : Shape p e -> closedTrace e.
Proof.
  induction 1 as [p s Hp _|p sI eI sX eX HtI HpI HI IHI HtX HpX HX IHX].
  - simpl. split; [|done]. intros _. constructor.
  - simpl. split; [by rewrite HtI|].
    apply closedTrace_app; [done| |].
    + simpl. split; [by rewrite HtX | done].
    + intros s Hs _.
      pose proof (Shape_prefix _ _ HI) as HprefI.
      pose proof (Shape_prefix _ _ HX) as HprefX.
      rewrite Forall_forall in HprefI. specialize (HprefI s Hs).
      constructor.
      * intros Heq. eapply (sibling_paths_differ p); [exact HprefI| |].
        -- by rewrite <- HpX.
        -- done.
      * eapply Forall_impl; [exact HprefX|]. intros s' Hs' Heq.
        by eapply (sibling_paths_differ p); [exact HprefI|exact Hs'|].
Qed.

(** *** Terminal statuses across cursors *)

Lemma replay_unfold stepList cur utxos :
  replay stepList cur utxos =
  acc ← replayLoop stepList cur utxos cur 0 initialTree;
  (fun s => replayStep cur utxos cur s acc) <$> stepList !! cur.
Proof.
  unfold replay. replace (S cur) with (cur + 1)%nat by lia.
  rewrite replayLoop_split. simpl.
  destruct (replayLoop stepList cur utxos cur 0 initialTree); [|done].
  simpl. by destruct (stepList !! cur).
Qed.

Lemma nodeStatus_unfold stepList cur utxos p :
  nodeStatus stepList cur utxos p =
  r ← replay stepList cur utxos; statusAt r.1 p.
Proof. done. Qed.

Lemma initialTree_statusAt p st :
  statusAt initialTree.1 p = Some st -> st = pending.
Proof.
  unfold statusAt, initialTree, nm_get, nm_set. simpl.
  rewrite lookup_insert. case_decide; simpl; [by intros [= <-]|].
  by rewrite lookup_empty.
Qed.

Lemma terminal_status_carried stepList utxos i j p st sj :
  (forall k k' s s',
     stepList !! k = Some s -> isTerminal (type s) = true ->
     (k < k')%nat -> (k' < j)%nat -> stepList !! k' = Some s' ->
     path s' <> path s) ->
  nodeStatus stepList i utxos p = Some st ->
  st = pruned \/ st = solution ->
  (i < j)%nat ->
  stepList !! j = Some sj ->
  (exists k s,
     (k <= i)%nat /\ stepList !! k = Some s /\
     path s = p /\ isTerminal (type s) = true) /\
  nodeStatus stepList j utxos p =
  Some (if decide (path sj = p) then newStatus true (type sj) st else st).
Proof.
  intros Hclosed Hi Hterm Hij Hj.
  rewrite nodeStatus_unfold, replay_unfold in Hi.
  destruct (replayLoop stepList i utxos i 0 initialTree) as [Ai|] eqn:HAi;
    [|done].
  simpl in Hi. destruct (stepList !! i) as [si|] eqn:Hsi; [|done].
  simpl in Hi.
  (* The step at [i], replayed as a past step. *)
  assert (statusAt (replayStep j utxos i si Ai).1 p = Some st /\
          exists k s,
            (k <= i)%nat /\ stepList !! k = Some s /\
            path s = p /\ isTerminal (type s) = true) as [HB Htouch].
  { destruct (decide (path si = p)) as [<-|Hne].
    - rewrite replayStep_here_eq in Hi. rewrite replayStep_here_eq.
      destruct (nm_get _ _) as [n|]; [|done]. simpl in *.
      injection Hi as Hi. rewrite Nat.eqb_refl in Hi.
      pose proof (newStatus_cursor_terminal _ _ _ Hi Hterm) as Hty.
      rewrite (newStatus_terminal_kind true _ (status n) Hty) in Hi.
      rewrite (newStatus_terminal_kind (i =? j)%nat _ (status n) Hty).
      split; [by rewrite Hi|]. exists i, si. done.
    - assert (statusAt Ai.1 p = Some st) as HAi_st.
      { eapply replayStep_elsewhere_inv; [done..|].
        by destruct Hterm as [-> | ->]. }
      split; [by apply replayStep_elsewhere|].
      destruct (replayLoop_terminal_source stepList utxos i i 0%nat
                  initialTree Ai p st ltac:(lia) HAi HAi_st Hterm)
        as [Hinit|(k & s & Hk & Hs & Hp & Hty)].
      + apply initialTree_statusAt in Hinit. subst st. by destruct Hterm.
      + exists k, s. split_and!; [lia|done..]. }
  split; [done|].
  destruct Htouch as (k0 & s0 & Hk0 & Hs0 & Hp0 & Hty0).
  (* The run for the cursor [j]. *)
  rewrite nodeStatus_unfold, replay_unfold.
  replace j with (i + S (j - i - 1))%nat at 2 by lia.
  rewrite replayLoop_split.
  rewrite (replayLoop_cursor_irrelevant _ _ j i) by (intros k ?; lia).
  rewrite HAi. simpl. rewrite Hsi.
  destruct (replayLoop_defined stepList utxos j (j - i - 1) (S i)
              (replayStep j utxos i si Ai)) as [Aj HAj].
  { apply lookup_lt_Some in Hj. lia. }
  rewrite HAj. simpl. rewrite Hj. simpl.
  assert (statusAt Aj.1 p = Some st) as HAj_st.
  { eapply replayLoop_preserves; [exact HAj|exact HB|].
    intros k s Hk Hs. rewrite <- Hp0.
    eapply (Hclosed k0 k); [done..|lia|lia|done]. }
  case_decide as Hpj.
  - rewrite <- Hpj in HAj_st |- *.
    rewrite (replayStep_here_known _ _ _ _ _ _ HAj_st).
    by rewrite Nat.eqb_refl.
  - by apply replayStep_elsewhere.
Qed.

(** C8, as stated, fails.  For the single value 10 and the target 100 the
    trace is [PRUNE_SUM] at the root followed by [COMPLETE]: the root is
    [pruned] in the reconstruction for the cursor 0 and [active] in the
    reconstruction for the cursor 1. *)
Lemma root_status_changes_at_complete :
  let sc := generateScenario [10] 100 0 in
  length (sc_steps sc) = 2%nat /\
  nodeStatus (sc_steps sc) 0 (sc_utxos sc) [] = Some pruned /\
  nodeStatus (sc_steps sc) 1 (sc_utxos sc) [] = Some active.
Proof. vm_compute. done. Qed.

(** C8, amended (terminal statuses persist).  For a trace produced by
    [generateScenario], a node path and two cursors [i < j] inside the
    trace: when the node is [pruned] (or [solution]) in the reconstruction
    for [i], it has that same status in the reconstruction for [j], with
    one exception: at the cursor of the final [COMPLETE] step, whose path is
    empty, the root node is [active].  In no case is the status [visited]. *)
Theorem terminal_status_persists
    (utxoValues : list Z) (target tolerance : Z)
    (p : list bool) (i j : nat) (st : NodeStatus) :
  let sc := generateScenario utxoValues target tolerance in
  nodeStatus (sc_steps sc) i (sc_utxos sc) p = Some st ->
  st = pruned \/ st = solution ->
  (i < j)%nat ->
  (j < length (sc_steps sc))%nat ->
  nodeStatus (sc_steps sc) j (sc_utxos sc) p =
    Some (if bool_decide (p = [] /\ j = (length (sc_steps sc) - 1)%nat)
          then active else st) /\
  nodeStatus (sc_steps sc) j (sc_utxos sc) p <> Some visited.
Proof.
  intros sc Hi Hterm Hij Hj. subst sc.
  destruct (generateScenario_trace utxoValues target tolerance)
    as (e & fin & He & Hfin & Hpfin & _ & Hshape & _).
  set (utxos := sc_utxos _) in *. clearbody utxos.
  rewrite He in Hi, Hj |- *. rewrite length_app in Hj |- *. simpl in Hj |- *.
  pose proof (Shape_closedTrace _ _ Hshape) as Hclosed.
  destruct (lookup_lt_is_Some_2 (e ++ [fin]) j) as [sj Hsj].
  { rewrite length_app. simpl. lia. }
  clear He.
  destruct (terminal_status_carried (e ++ [fin]) utxos i j p st sj)
    as [(k0 & s0 & Hk0 & Hs0 & Hp0 & Hty0) Hres]; try done.
  { intros k k' s s' Hk Hty Hlt Hlt' Hk'.
    rewrite lookup_app_l in Hk by lia. rewrite lookup_app_l in Hk' by lia.
    by eapply (closedTrace_lookup e k k'). }
  assert (Hk0e : e !! k0 = Some s0).
  { apply lookup_snoc_Some in Hs0 as [[_ ?]|[_ <-]]; [done|].
    by rewrite Hfin in Hty0. }
  assert (Hgoal :
    (if decide (path sj = p) then newStatus true (type sj) st else st) =
    (if bool_decide (p = [] /\ j = (length e + 1 - 1)%nat) then active else st)).
  { apply lookup_snoc_Some in Hsj as [[Hlt Hsj]|[Hjl <-]].
    - rewrite decide_False, bool_decide_eq_false_2; [done|lia|].
      rewrite <- Hp0. eapply (closedTrace_lookup e k0 j); [done..|lia|done].
    - destruct (decide (path fin = p)) as [Hp|Hp].
      + rewrite bool_decide_eq_true_2 by (split; [congruence|lia]).
        rewrite Hfin. by apply newStatus_cursor_other.
      + rewrite bool_decide_eq_false_2; [done|]. intros [Heq _]. congruence. }
  rewrite Hres, Hgoal. split; [done|].
  case_bool_decide; [done|]. by destruct Hterm as [-> | ->].
Qed.

Lemma terminal_status_persists_witness :
  length (sc_steps (generateScenario [60; 50; 25] 110 0)) = 8%nat /\
  nodeStatus (sc_steps (generateScenario [60; 50; 25] 110 0)) 2
    (sc_utxos (generateScenario [60; 50; 25] 110 0)) [true; true]
    = Some solution /\
  nodeStatus (sc_steps (generateScenario [60; 50; 25] 110 0)) 5
    (sc_utxos (generateScenario [60; 50; 25] 110 0)) [true; true]
    = Some solution.
Proof.
  split; [vm_compute; reflexivity|]. split; [vm_compute; reflexivity|].
  refine (proj1 (terminal_status_persists [60; 50; 25] 110 0 [true; true]
                   2 5 solution _ _ _ _)).
  - vm_compute. reflexivity.
  - right. reflexivity.
  - lia.
  - vm_compute. lia.
Defined.

(** * Further properties of the search engine *)

(** ** The sorted values *)

Lemma prepareUtxos_values (utxoValues : list Z) :
  value <$> prepareUtxos utxoValues = sortDescending utxoValues.
Proof.
  unfold prepareUtxos. apply list_eq. intros i.
  rewrite list_lookup_fmap, list_lookup_imap.
  by destruct (sortDescending utxoValues !! i).
Qed.

Lemma prepareUtxos_length (utxoValues : list Z) :
  length (prepareUtxos utxoValues) = length utxoValues.
Proof.
  unfold prepareUtxos, sortDescending.
  by rewrite length_imap, merge_sort_Permutation.
Qed.

Lemma StronglySorted_lookup {A} (R : relation A) (l : list A) i j a b :
  StronglySorted R l -> (i < j)%nat ->
  l !! i = Some a -> l !! j = Some b -> R a b.
Proof.
  intros Hs. revert i j. induction Hs as [|x l Hs IH Hall]; intros i j Hij Hi Hj.
  - done.
  - destruct j as [|j]; [lia|]. destruct i as [|i]; simpl in *.
    + injection Hi as <-. rewrite Forall_lookup in Hall. by eapply Hall.
    + eapply (IH i j); [lia|done..].
Qed.

(** The values of the scenario are the input values in descending order,
    numbered from 0. *)
Theorem prepareUtxos_sorted_permutation (utxoValues : list Z) :
  value <$> prepareUtxos utxoValues ≡ₚ utxoValues /\
  (forall i j a b,
     (i < j)%nat ->
     prepareUtxos utxoValues !! i = Some a ->
     prepareUtxos utxoValues !! j = Some b ->
     value b <= value a) /\
  (forall i u,
     prepareUtxos utxoValues !! i = Some u ->
     utxo_id u = "utxo-" +:+ pretty i).
Proof.
  split_and!.
  - rewrite prepareUtxos_values. apply merge_sort_Permutation.
  - intros i j a b Hij Ha Hb.
    assert (Hs : StronglySorted (flip Z.le) (value <$> prepareUtxos utxoValues)).
    { rewrite prepareUtxos_values. apply StronglySorted_merge_sort.
      - intros x y z ? ?. unfold flip in *. lia.
      - intros x y. unfold flip. lia. }
    apply (StronglySorted_lookup _ _ i j (value a) (value b) Hs Hij);
      by rewrite list_lookup_fmap, ?Ha, ?Hb.
  - intros i u Hu. unfold prepareUtxos in Hu.
    rewrite list_lookup_imap in Hu.
    destruct (sortDescending utxoValues !! i); [|done].
    by injection Hu as <-.
Qed.

(** ** More facts from the big-step relation *)

Section MoreSearchFacts.

Variable utxos : list Utxo.
Variable target : Z.
Variable dustThreshold : Z.

Local Abbreviation recordStep := (recordStep utxos).
Local Abbreviation getRemainingSum := (getRemainingSum utxos).
Local Abbreviation isSolution := (isSolution target dustThreshold).
Local Abbreviation backtrack := (backtrack utxos target dustThreshold).
Local Abbreviation Run := (Run utxos target dustThreshold).
Local Abbreviation StepJustified := (StepJustified utxos target dustThreshold).

Lemma isSolution_false sum :
  isSolution sum = false -> ~ solutionCondition target dustThreshold sum.
Proof.
  intros Hf Hs. apply isSolution_true in Hs. congruence.
Qed.

Lemma recordStep_Forall_all (P : AlgorithmStep -> Prop)
    ty d idx sel sum desc p st :
  Forall P (steps st) ->
  (forall s, type s = ty -> depth s = d -> utxoIndex s = idx ->
             currentSelection s = sel -> currentSum s = sum -> path s = p ->
             stepId s = stepCounter st -> P s) ->
  Forall P (steps (recordStep ty d idx sel sum desc p st)).
Proof.
  intros Hall Hnew. simpl. apply Forall_app. split; [done|].
  apply Forall_singleton. by apply Hnew.
Qed.

Lemma Run_StepJustified d sel sum idx p st st' :
  Run d sel sum idx p st st' ->
  d = idx -> length p = idx -> (idx <= length utxos)%nat ->
  Forall StepJustified (steps st) -> Forall StepJustified (steps st').
Proof.
  induction 1 as [d sel sum idx p st Hsol
                 |d sel sum idx p st Hsol Hend
                 |d sel sum idx p st Hsol Hlt Hsum
                 |d sel sum idx p st Hsol Hlt Hsum Hval
                 |d sel sum idx p st st1 st2 Hsol Hlt Hsum Hval _ IHl _ IHr];
    intros Hd Hlen Hle Hall.
  - apply recordStep_Forall_all; [done|].
    intros s Hty Hdepth Hidx _ Hcsum Hp _.
    red. rewrite Hty, Hp, Hdepth, Hidx, Hcsum. subst d.
    split_and!; [done|done|done|]. by apply isSolution_true.
  - apply recordStep_Forall_all; [done|].
    intros s Hty Hdepth Hidx _ Hcsum Hp _.
    red. rewrite Hty, Hp, Hdepth, Hidx, Hcsum. subst d.
    split_and!; [done|done|lia|]. by apply isSolution_false.
  - apply recordStep_Forall_all; [done|].
    intros s Hty Hdepth Hidx _ Hcsum Hp _.
    red. rewrite Hty, Hp, Hdepth, Hidx, Hcsum. subst d.
    split_and!; [done|done|done| |done]. by apply isSolution_false.
  - apply recordStep_Forall_all; [done|].
    intros s Hty Hdepth Hidx _ Hcsum Hp _.
    red. rewrite Hty, Hp, Hdepth, Hidx, Hcsum. subst d.
    split_and!; [done|done|done| |done|done]. by apply isSolution_false.
  - apply IHr; [lia|rewrite length_app; simpl; lia|lia|].
    apply recordStep_Forall_all.
    + apply IHl; [lia|rewrite length_app; simpl; lia|lia|].
      apply recordStep_Forall_all; [done|].
      intros s Hty Hdepth Hidx _ _ Hp _.
      red. rewrite Hty, Hp, Hdepth, Hidx, length_app, last_snoc. subst d.
      simpl. split_and!; [lia|done..].
    + intros s Hty Hdepth Hidx _ _ Hp _.
      red. rewrite Hty, Hp, Hdepth, Hidx, length_app, last_snoc. subst d.
      simpl. split_and!; [lia|done..].
Qed.

(** *** Step ids and candidates *)

Lemma recordStep_TraceOK ty d idx sel sum desc p st :
  ty <> SOLUTION ->
  TraceOK st -> TraceOK (recordStep ty d idx sel sum desc p st).
Proof.
  intros Hty [Hc Hids Hcands]. split; simpl.
  - rewrite Hc, length_app. simpl. lia.
  - intros i s Hi. apply lookup_snoc_Some in Hi as [[_ Hi]|[-> <-]].
    + by apply Hids.
    + done.
  - rewrite filter_app, filter_cons_False, filter_nil, app_nil_r by done.
    done.
Qed.

Lemma solution_TraceOK d idx sel sum desc p st :
  TraceOK st ->
  TraceOK (recordStep SOLUTION d idx sel sum desc p (noteSolution sel sum p st)).
Proof.
  intros [Hc Hids Hcands]. split; simpl.
  - rewrite Hc, length_app. simpl. lia.
  - intros i s Hi. apply lookup_snoc_Some in Hi as [[_ Hi]|[-> <-]].
    + by apply Hids.
    + done.
  - rewrite filter_app, filter_cons_True, filter_nil, fmap_app by done.
    by rewrite Hcands.
Qed.

Lemma Run_TraceOK d sel sum idx p st st' :
  Run d sel sum idx p st st' -> TraceOK st -> TraceOK st'.
Proof.
  induction 1; intros Hok;
    auto using recordStep_TraceOK, solution_TraceOK.
Qed.

Lemma initialState_TraceOK : TraceOK initialState.
Proof. by split. Qed.

(** *** The number of steps *)

Lemma Run_length d sel sum idx p st st' :
  Run d sel sum idx p st st' ->
  (idx <= length utxos)%nat ->
  (length (steps st) < length (steps st'))%nat /\
  (length (steps st') + 2 <=
     length (steps st) + 3 * 2 ^ (length utxos - idx))%nat.
Proof.
  induction 1 as [d sel sum idx p st Hsol
                 |d sel sum idx p st Hsol Hend
                 |d sel sum idx p st Hsol Hlt Hsum
                 |d sel sum idx p st Hsol Hlt Hsum Hval
                 |d sel sum idx p st st1 st2 Hsol Hlt Hsum Hval _ IHl _ IHr];
    intros Hle.
  1-4: simpl; rewrite length_app; simpl;
       pose proof (Nat.pow_nonzero 2 (length utxos - idx)); lia.
  destruct (IHl ltac:(lia)) as [Hl1 Hl2].
  destruct (IHr ltac:(lia)) as [Hr1 Hr2].
  simpl in Hl1, Hl2, Hr1, Hr2. rewrite length_app in Hl1, Hl2, Hr1, Hr2.
  simpl in Hl1, Hl2, Hr1, Hr2.
  replace (length utxos - idx)%nat with (S (length utxos - S idx)) by lia.
  rewrite Nat.pow_succ_r'. lia.
Qed.

(** *** Completeness of the search *)

Lemma foldl_add_shift (a : Z) (l : list Utxo) :
  foldl (fun sum u => sum + value u) a l =
  a + foldl (fun sum u => sum + value u) 0 l.
Proof.
  revert a. induction l as [|u l IH]; intros a; simpl; [lia|].
  rewrite (IH (a + value u)), (IH (0 + value u)). lia.
Qed.

Lemma getRemainingSum_lt idx :
  (idx < length utxos)%nat ->
  getRemainingSum idx = value (utxos !!! idx) + getRemainingSum (S idx).
Proof.
  intros Hlt.
  destruct (lookup_lt_is_Some_2 utxos idx Hlt) as [u Hu].
  rewrite (list_lookup_total_correct _ _ _ Hu).
  change (getRemainingSum idx) with
    (foldl (fun sum u => sum + value u) 0 (drop idx utxos)).
  change (getRemainingSum (S idx)) with
    (foldl (fun sum u => sum + value u) 0 (drop (S idx) utxos)).
  rewrite (drop_S _ _ _ Hu). simpl. rewrite foldl_add_shift. lia.
Qed.

Lemma getRemainingSum_ge idx :
  (length utxos <= idx)%nat -> getRemainingSum idx = 0.
Proof.
  intros Hge.
  change (getRemainingSum idx) with
    (foldl (fun sum u => sum + value u) 0 (drop idx utxos)).
  by rewrite drop_ge.
Qed.

Lemma value_at_ge idx :
  (length utxos <= idx)%nat -> value (utxos !!! idx) = 0.
Proof.
  intros Hge. by rewrite list_lookup_total_alt, lookup_ge_None_2.
Qed.

Section NonNegative.

Hypothesis values_nonneg : Forall (fun u => 0 <= value u) utxos.
Hypothesis tolerance_nonneg : 0 <= dustThreshold.

Lemma value_at_nonneg idx : 0 <= value (utxos !!! idx).
Proof.
  destruct (utxos !! idx) as [u|] eqn:Hu.
  - rewrite (list_lookup_total_correct _ _ _ Hu).
    rewrite Forall_lookup in values_nonneg. by eapply values_nonneg.
  - by rewrite list_lookup_total_alt, Hu.
Qed.

(** Whatever is decided for the values still to consider, the sum stays
    between the current sum and the current sum plus the remaining sum. *)
Lemma selectedSum_extension (q p : list bool) :
  selectedSum utxos p <= selectedSum utxos (p ++ q) /\
  selectedSum utxos (p ++ q) <=
    selectedSum utxos p + getRemainingSum (length p).
Proof.
  revert p. induction q as [|b q IH]; intros p.
  - rewrite app_nil_r.
    destruct (decide (length p < length utxos)%nat) as [Hlt|Hge].
    + assert (Hrem : forall k, 0 <= getRemainingSum k).
      { intros k. destruct (decide (k < length utxos)%nat) as [Hk|Hk].
        - remember (length utxos - k)%nat as m eqn:Hm.
          revert k Hk Hm. induction m as [|m IHm]; intros k Hk Hm; [lia|].
          rewrite getRemainingSum_lt by done.
          pose proof (value_at_nonneg k).
          destruct (decide (S k < length utxos)%nat).
          + specialize (IHm (S k)). lia.
          + rewrite (getRemainingSum_ge (S k)) by lia. lia.
        - rewrite getRemainingSum_ge by lia. lia. }
      specialize (Hrem (length p)). lia.
    + rewrite getRemainingSum_ge by lia. lia.
  - replace (p ++ b :: q) with ((p ++ [b]) ++ q)
      by (by rewrite <- app_assoc).
    destruct (IH (p ++ [b])) as [Hlo Hhi].
    rewrite selectedSum_snoc in Hlo, Hhi.
    rewrite length_app in Hhi. simpl in Hhi.
    rewrite Nat.add_1_r in Hhi.
    pose proof (value_at_nonneg (length p)) as Hv.
    destruct (decide (length p < length utxos)%nat) as [Hlt|Hge].
    + rewrite (getRemainingSum_lt (length p)) by done. destruct b; lia.
    + rewrite (getRemainingSum_ge (length p)) by lia.
      rewrite (getRemainingSum_ge (S (length p))) in Hhi by lia.
      rewrite value_at_ge in Hlo, Hhi by lia. destruct b; lia.
Qed.

Lemma recordStep_found ty d idx sel sum desc p st :
  foundAnySolution (recordStep ty d idx sel sum desc p st) = foundAnySolution st.
Proof. done. Qed.

Lemma Run_found_mono d sel sum idx p st st' :
  Run d sel sum idx p st st' ->
  foundAnySolution st = true -> foundAnySolution st' = true.
Proof. induction 1; intros Hf; auto. Qed.

Lemma Run_complete d sel sum idx p st st' :
  Run d sel sum idx p st st' ->
  length p = idx -> sum = selectedSum utxos p ->
  (exists q, solutionCondition target dustThreshold
               (selectedSum utxos (p ++ q))) ->
  foundAnySolution st' = true.
Proof.
  induction 1 as [d sel sum idx p st Hsol
                 |d sel sum idx p st Hsol Hend
                 |d sel sum idx p st Hsol Hlt Hsum
                 |d sel sum idx p st Hsol Hlt Hsum Hval
                 |d sel sum idx p st st1 st2 Hsol Hlt Hsum Hval Hl IHl Hr IHr];
    intros Hlen Hs [q Hq].
  - done.
  - exfalso. apply isSolution_false in Hsol. apply Hsol.
    destruct (selectedSum_extension q p) as [Hlo Hhi].
    rewrite getRemainingSum_ge in Hhi by lia.
    replace sum with (selectedSum utxos (p ++ q)) by lia. done.
  - exfalso. destruct (selectedSum_extension q p) as [Hlo Hhi].
    rewrite Hlen, <- Hs in Hhi. unfold solutionCondition in Hq. lia.
  - exfalso. destruct (selectedSum_extension q p) as [Hlo Hhi].
    rewrite <- Hs in Hlo. unfold solutionCondition in Hq. lia.
  - destruct q as [|b q].
    + exfalso. apply isSolution_false in Hsol. apply Hsol.
      rewrite app_nil_r, <- Hs in Hq. done.
    + replace (p ++ b :: q) with ((p ++ [b]) ++ q) in Hq
        by (by rewrite <- app_assoc).
      destruct b.
      * eapply Run_found_mono; [exact Hr|]. rewrite recordStep_found.
        apply IHl.
        -- rewrite length_app. simpl. lia.
        -- rewrite selectedSum_snoc, Hlen. lia.
        -- by exists q.
      * apply IHr.
        -- rewrite length_app. simpl. lia.
        -- rewrite selectedSum_snoc. lia.
        -- by exists q.
Qed.

End NonNegative.

End MoreSearchFacts.

Lemma prepareUtxos_nonneg (utxoValues : list Z) :
  Forall (fun v => 0 <= v) utxoValues ->
  Forall (fun u => 0 <= value u) (prepareUtxos utxoValues).
Proof.
  intros Hall.
  assert (Forall (fun v => 0 <= v) (value <$> prepareUtxos utxoValues)) as H.
  { rewrite prepareUtxos_values. unfold sortDescending.
    by rewrite merge_sort_Permutation. }
  rewrite Forall_lookup in H. apply Forall_lookup. intros i u Hu.
  apply (H i). by rewrite list_lookup_fmap, Hu.
Qed.

(** The bookkeeping of the trace of a scenario. *)
Lemma generateScenario_bookkeeping (utxoValues : list Z) (target tolerance : Z) :
  exists e fin,
    sc_steps (generateScenario utxoValues target tolerance) = e ++ [fin] /\
    type fin = COMPLETE /\ stepId fin = length e /\
    Forall (StepJustified (prepareUtxos utxoValues) target tolerance) e /\
    (forall i s, e !! i = Some s -> stepId s = i) /\
    sc_candidates (generateScenario utxoValues target tolerance) =
      candidateOf <$> filter (fun s => type s = SOLUTION) e /\
    (0 < length e)%nat /\
    (length e + 2 <= 3 * 2 ^ length utxoValues)%nat.
Proof.
  pose proof (backtrack_Run (prepareUtxos utxoValues) target tolerance
                0 [] 0 0 [] initialState) as Hrun.
  pose proof (Run_TraceOK _ _ _ _ _ _ _ _ _ _ Hrun initialState_TraceOK)
    as [Hc Hids Hcands].
  pose proof (Run_StepJustified _ _ _ _ _ _ _ _ _ _ Hrun eq_refl eq_refl
                ltac:(lia) ltac:(constructor)) as Hjust.
  destruct (Run_length _ _ _ _ _ _ _ _ _ _ Hrun ltac:(lia)) as [Hlo Hhi].
  simpl in Hlo, Hhi. rewrite Nat.sub_0_r, prepareUtxos_length in Hhi.
  eexists _, _. split; [reflexivity|]. split_and!; try done.
Qed.

(** * Further theorems about the search engine *)

(** The step ids are the positions in the trace. *)
Theorem step_id_is_position
    (utxoValues : list Z) (target tolerance : Z) (i : nat) (s : AlgorithmStep) :
  sc_steps (generateScenario utxoValues target tolerance) !! i = Some s ->
  stepId s = i.
Proof.
  intros Hi.
  destruct (generateScenario_bookkeeping utxoValues target tolerance)
    as (e & fin & He & _ & Hfin & _ & Hids & _).
  rewrite He in Hi.
  apply lookup_snoc_Some in Hi as [[_ Hi]|[-> <-]]; [by apply Hids|done].
Qed.

Lemma step_id_is_position_witness :
  exists s,
    sc_steps (generateScenario [60; 50; 25] 110 0) !! 4%nat = Some s /\
    stepId s = 4%nat.
Proof.
  eexists. split; [vm_compute; reflexivity|].
  eapply (step_id_is_position [60; 50; 25] 110 0 4).
  vm_compute; reflexivity.
Defined.

(** The candidates are exactly the [SOLUTION] steps of the trace, in the
    order of the trace: each gives its path, its step id and its sum. *)
Theorem candidates_are_solution_steps
    (utxoValues : list Z) (target tolerance : Z) :
  sc_candidates (generateScenario utxoValues target tolerance) =
  candidateOf <$>
    filter (fun s => type s = SOLUTION)
      (sc_steps (generateScenario utxoValues target tolerance)).
Proof.
  destruct (generateScenario_bookkeeping utxoValues target tolerance)
    as (e & fin & He & Hfin & _ & _ & _ & Hcands & _).
  rewrite He, filter_app, filter_cons_False, filter_nil, app_nil_r;
    [done|]. by rewrite Hfin.
Qed.

(** The trace holds at least two steps and at most [3 * 2^n - 1] steps for
    [n] values. *)
Theorem trace_length_bounds (utxoValues : list Z) (target tolerance : Z) :
  (2 <= length (sc_steps (generateScenario utxoValues target tolerance)))%nat /\
  (length (sc_steps (generateScenario utxoValues target tolerance)) + 1
     <= 3 * 2 ^ length utxoValues)%nat.
Proof.
  destruct (generateScenario_bookkeeping utxoValues target tolerance)
    as (e & fin & He & _ & _ & _ & _ & _ & Hlo & Hhi).
  rewrite He, length_app. simpl. lia.
Qed.

(** The selection of every step lists, in ascending order, the indices at
    which its path holds [true]. *)
Theorem step_selection_matches_path
    (utxoValues : list Z) (target tolerance : Z) (i : nat) (s : AlgorithmStep) :
  sc_steps (generateScenario utxoValues target tolerance) !! i = Some s ->
  currentSelection s = selectedIndices (path s).
Proof.
  intros Hi.
  pose proof (backtrack_Run (prepareUtxos utxoValues) target tolerance
                0 [] 0 0 [] initialState) as Hrun.
  pose proof (Run_StepOK _ _ _ _ _ _ _ _ _ _ Hrun eq_refl eq_refl eq_refl
                ltac:(constructor)) as Hall.
  change (sc_steps (generateScenario utxoValues target tolerance)) with
    (steps (runSearch (prepareUtxos utxoValues) target tolerance)) in Hi.
  unfold runSearch in Hi. simpl in Hi.
  apply lookup_snoc_Some in Hi as [[_ Hi]|[_ <-]]; [|done].
  rewrite Forall_lookup in Hall.
  by apply (ok_selection _ _ _ _ (Hall _ _ Hi)).
Qed.

Lemma step_selection_matches_path_witness :
  exists s,
    sc_steps (generateScenario [60; 50; 25] 110 0) !! 3%nat = Some s /\
    path s = [true; false] /\
    currentSelection s = selectedIndices (path s).
Proof.
  eexists. split; [vm_compute; reflexivity|]. split; [reflexivity|].
  eapply (step_selection_matches_path [60; 50; 25] 110 0 3).
  vm_compute; reflexivity.
Defined.

(** Where a step sits.  A step other than the final [COMPLETE] step is
    never a [START] step and its path is at most as long as the value list.
    An [INCLUDE] or [EXCLUDE] step carries the path of the child it opens
    (one longer than its depth, ending with [true] for [INCLUDE] and
    [false] for [EXCLUDE]) and the index of the value decided upon; any
    other step carries the path of its own node, and its index is its
    depth, or its depth minus one for a [SOLUTION] step. *)
Theorem step_position
    (utxoValues : list Z) (target tolerance : Z) (i : nat) (s : AlgorithmStep) :
  sc_steps (generateScenario utxoValues target tolerance) !! i = Some s ->
  type s <> COMPLETE ->
  type s <> START /\
  (length (path s) <= length utxoValues)%nat /\
  (type s = INCLUDE \/ type s = EXCLUDE ->
     length (path s) = S (depth s) /\
     utxoIndex s = Z.of_nat (depth s) /\
     last (path s) = Some (bool_decide (type s = INCLUDE))) /\
  (type s <> INCLUDE -> type s <> EXCLUDE ->
     length (path s) = depth s /\
     utxoIndex s =
       Z.of_nat (depth s) - (if bool_decide (type s = SOLUTION) then 1 else 0)).
Proof.
  intros Hi Hty.
  destruct (generateScenario_bookkeeping utxoValues target tolerance)
    as (e & fin & He & Hfin & _ & Hjust & _).
  rewrite He in Hi.
  apply lookup_snoc_Some in Hi as [[_ Hi]|[_ <-]]; [|done].
  rewrite Forall_lookup in Hjust. specialize (Hjust _ _ Hi).
  unfold StepJustified in Hjust. rewrite prepareUtxos_length in Hjust.
  destruct (type s); try done; destruct_and?;
    split_and!; try done; try lia;
    try (intros [?|?]; try done; by split_and!);
    try (intros ? ?; try done; split; [done|];
         rewrite ?bool_decide_eq_true_2, ?bool_decide_eq_false_2 by done;
         lia).
Qed.

Lemma step_position_witness :
  exists s,
    sc_steps (generateScenario [60; 50; 25] 110 0) !! 3%nat = Some s /\
    type s = EXCLUDE /\
    length (path s) = S (depth s) /\
    utxoIndex s = Z.of_nat (depth s) /\
    last (path s) = Some false.
Proof.
  eexists. split; [vm_compute; reflexivity|]. split; [reflexivity|].
  refine (proj1 (proj2 (proj2 (step_position [60; 50; 25] 110 0 3 _ _ _))) _).
  - vm_compute; reflexivity.
  - discriminate.
  - right. reflexivity.
Defined.

(** Why a branch was closed, for an input in the exact range.  A
    [PRUNE_SUM] step is recorded only at a node
    that is no solution and whose sum plus the remaining values is below
    the target; a [PRUNE_VAL] step only at a node that is no solution, is
    not pruned by the sum test and whose sum exceeds target plus tolerance;
    a [BACKTRACK] step only at a full-depth node that is no solution. *)
Theorem closing_step_justified
    (utxoValues : list Z) (target tolerance : Z) (i : nat) (s : AlgorithmStep) :
  let sc := generateScenario utxoValues target tolerance in
  ExactRange utxoValues target tolerance ->
  sc_steps sc !! i = Some s ->
  (type s = PRUNE_SUM ->
     ~ solutionCondition target tolerance (currentSum s) /\
     currentSum s + getRemainingSum (sc_utxos sc) (length (path s)) < target) /\
  (type s = PRUNE_VAL ->
     ~ solutionCondition target tolerance (currentSum s) /\
     target <= currentSum s + getRemainingSum (sc_utxos sc) (length (path s)) /\
     target + tolerance < currentSum s) /\
  (type s = BACKTRACK ->
     ~ solutionCondition target tolerance (currentSum s) /\
     length (path s) = length utxoValues).
Proof.
  intros sc _ Hi. subst sc.
  destruct (generateScenario_bookkeeping utxoValues target tolerance)
    as (e & fin & He & Hfin & _ & Hjust & _).
  rewrite He in Hi.
  apply lookup_snoc_Some in Hi as [[_ Hi]|[_ <-]].
  - rewrite Forall_lookup in Hjust. specialize (Hjust _ _ Hi).
    unfold StepJustified in Hjust. rewrite prepareUtxos_length in Hjust.
    change (sc_utxos (generateScenario utxoValues target tolerance))
      with (prepareUtxos utxoValues).
    split_and!; intros Hty; rewrite Hty in Hjust; destruct_and?;
      split_and?; try done; congruence.
  - rewrite Hfin. by split_and!.
Qed.

Lemma closing_step_justified_witness :
  exists s,
    sc_steps (generateScenario [60; 50; 25] 110 0) !! 4%nat = Some s /\
    type s = PRUNE_SUM /\
    ~ solutionCondition 110 0 (currentSum s) /\
    currentSum s +
      getRemainingSum (sc_utxos (generateScenario [60; 50; 25] 110 0))
        (length (path s)) < 110.
Proof.
  eexists. split; [vm_compute; reflexivity|]. split; [reflexivity|].
  refine (proj1 (closing_step_justified [60; 50; 25] 110 0 4 _ _ _) _).
  - unfold ExactRange; simpl; lia.
  - vm_compute; reflexivity.
  - reflexivity.
Defined.

(** The answer of a successful search on an input in the exact range is a
    solution: the best path is
    defined, the best indices are the indices it selects, and the sum of
    the values it selects meets the solution test. *)
Theorem best_solution_is_valid (utxoValues : list Z) (target tolerance : Z) :
  let sc := generateScenario utxoValues target tolerance in
  ExactRange utxoValues target tolerance ->
  outcome sc = success ->
  exists bp,
    sc_bestSolutionPath sc = Some bp /\
    sc_bestSolutionIndices sc = Some (selectedIndices bp) /\
    solutionCondition target tolerance (selectedSum (sc_utxos sc) bp).
Proof.
  intros sc _ Hsucc. subst sc.
  destruct (generateScenario_trace utxoValues target tolerance)
    as (e & fin & He & _ & _ & _ & _ & Hall & Hcands & Hbest).
  unfold bestIsLast in Hbest. rewrite Hsucc in Hbest.
  rewrite bool_decide_eq_true_2 in Hbest by done.
  destruct (last (sc_candidates _)) as [c|] eqn:Hlast;
    [|by destruct Hbest].
  destruct Hbest as (_ & Hpath & Hidx).
  rewrite Forall_forall in Hcands.
  destruct (Hcands c (last_Some_elem_of _ _ Hlast))
    as (s & Hs & _ & Hty & Hp & _).
  rewrite Forall_lookup in Hall. specialize (Hall _ _ Hs).
  exists (cand_path c). split; [done|]. rewrite Hs in Hidx.
  rewrite <- Hp. split.
  - rewrite Hidx. simpl. by rewrite (ok_selection _ _ _ _ Hall).
  - change (sc_utxos (generateScenario utxoValues target tolerance))
      with (prepareUtxos utxoValues).
    rewrite <- (ok_sum _ _ _ _ Hall). by apply (ok_solution _ _ _ _ Hall).
Qed.

Lemma best_solution_is_valid_witness :
  exists bp,
    sc_bestSolutionPath (generateScenario [60; 50; 25] 110 0) = Some bp /\
    sc_bestSolutionIndices (generateScenario [60; 50; 25] 110 0)
      = Some (selectedIndices bp) /\
    solutionCondition 110 0
      (selectedSum (sc_utxos (generateScenario [60; 50; 25] 110 0)) bp).
Proof.
  apply (best_solution_is_valid [60; 50; 25] 110 0).
  - unfold ExactRange; simpl; lia.
  - vm_compute. reflexivity.
Defined.

(** Soundness and completeness of the search.  For non-negative values and
    a non-negative tolerance in the exact range, the outcome is [success] exactly when some
    choice of values (some path) has a sum that meets the solution test. *)
Theorem search_succeeds_iff_solution_exists
    (utxoValues : list Z) (target tolerance : Z) :
  let sc := generateScenario utxoValues target tolerance in
  ExactRange utxoValues target tolerance ->
  Forall (fun v => 0 <= v) utxoValues ->
  0 <= tolerance ->
  (outcome sc = success <->
   exists q, solutionCondition target tolerance (selectedSum (sc_utxos sc) q)).
Proof.
  intros sc _ Hvals Htol. subst sc. split.
  - intros Hsucc.
    destruct (generateScenario_trace utxoValues target tolerance)
      as (e & fin & He & _ & _ & _ & _ & Hall & Hcands & Hbest).
    unfold bestIsLast in Hbest. rewrite Hsucc in Hbest.
    rewrite bool_decide_eq_true_2 in Hbest by done.
    destruct (last (sc_candidates _)) as [c|] eqn:Hlast;
      [|by destruct Hbest].
    rewrite Forall_forall in Hcands.
    destruct (Hcands c (last_Some_elem_of _ _ Hlast))
      as (s & Hs & _ & Hty & Hp & _).
    rewrite Forall_lookup in Hall. specialize (Hall _ _ Hs).
    exists (path s).
    change (sc_utxos (generateScenario utxoValues target tolerance))
      with (prepareUtxos utxoValues).
    rewrite <- (ok_sum _ _ _ _ Hall). by apply (ok_solution _ _ _ _ Hall).
  - intros [q Hq].
    pose proof (backtrack_Run (prepareUtxos utxoValues) target tolerance
                  0 [] 0 0 [] initialState) as Hrun.
    pose proof (Run_complete (prepareUtxos utxoValues) target tolerance
                  (prepareUtxos_nonneg _ Hvals) Htol
                  _ _ _ _ _ _ _ Hrun eq_refl eq_refl
                  (ex_intro _ q Hq)) as Hfound.
    unfold generateScenario, toScenario, runSearch. simpl.
    by rewrite Hfound.
Qed.

Lemma search_succeeds_iff_solution_exists_witness :
  outcome (generateScenario [60; 50; 25] 110 0) = success /\
  exists q, solutionCondition 110 0
              (selectedSum (sc_utxos (generateScenario [60; 50; 25] 110 0)) q).
Proof.
  split; [vm_compute; reflexivity|].
  apply (search_succeeds_iff_solution_exists [60; 50; 25] 110 0).
  - unfold ExactRange; simpl; lia.
  - repeat constructor; lia.
  - lia.
  - vm_compute. reflexivity.
Defined.


(** * Further properties of the replay *)

(** ** The reconstruction is a tree *)

Lemma updateNode_id cur i step n :
  node_id (updateNode cur i step n) = node_id n /\
  node_path (updateNode cur i step n) = node_path n.
Proof.
  unfold updateNode.
  destruct (i =? cur)%nat, (isPrune (type step)),
    (bool_decide (type step = SOLUTION)),
    (negb (bool_decide (status n = pruned)) &&
     negb (bool_decide (status n = solution))); done.
Qed.

Lemma EdgeOK_keeps m m' ed :
  (forall k, is_Some (nm_get k m) -> is_Some (nm_get k m')) ->
  EdgeOK m ed -> EdgeOK m' ed.
Proof.
  intros Hkeep (p & Hs & Ht & Hid & Hsrc & Htgt).
  exists p. split_and!; auto.
Qed.

(** Updating the node held at an existing key. *)
Lemma TreeOK_update k n n' m e :
  TreeOK (m, e) ->
  nm_get k m = Some n ->
  node_id n' = node_id n -> node_path n' = node_path n ->
  TreeOK (nm_set k n' m, e).
Proof.
  intros [Hroot Hnd Hdom Hids Hcount Hedges] Hk Hid Hpath. simpl in *.
  assert (Hhas : nm_has k m = true).
  { unfold nm_has. apply bool_decide_eq_true. unfold nm_get in Hk.
    by rewrite Hk. }
  assert (Hkeep : forall k', is_Some (nm_get k' m) <->
                             is_Some (nm_get k' (nm_set k n' m))).
  { intros k'. unfold nm_get, nm_set. simpl.
    destruct (decide (k = k')) as [<-|Hne].
    - rewrite lookup_insert_eq. unfold nm_get in Hk. rewrite Hk.
      split; by eexists.
    - by rewrite lookup_insert_ne. }
  split; simpl.
  - by apply Hkeep.
  - unfold nm_set. simpl. by rewrite Hhas.
  - intros k'. rewrite <- Hkeep. unfold nm_set. simpl. rewrite Hhas.
    apply Hdom.
  - intros k' n0. unfold nm_get, nm_set. simpl.
    destruct (decide (k = k')) as [<-|Hne].
    + rewrite lookup_insert_eq. intros [= <-]. rewrite Hid, Hpath.
      by apply Hids.
    + rewrite lookup_insert_ne by done. apply Hids.
  - unfold nm_set. simpl. by rewrite Hhas.
  - eapply Forall_impl; [exact Hedges|]. intros ed.
    apply EdgeOK_keeps. intros k'. apply Hkeep.
Qed.

(** One step down a path: the child is in the map afterwards. *)
Lemma visitDirection_TreeOK utxos cur m e d b :
  TreeOK (m, e) ->
  is_Some (nm_get (getPathId cur) m) ->
  let r := visitDirection utxos (cur, m, e) d b in
  r.1.1 = cur ++ [b] /\
  TreeOK (r.1.2, r.2) /\
  is_Some (nm_get (getPathId (cur ++ [b])) r.1.2).
Proof.
  intros Hok Hparent. unfold visitDirection.
  destruct (nm_has (getPathId (cur ++ [b])) m) eqn:Hhas; simpl.
  - split_and!; [done..|]. unfold nm_has in Hhas.
    by apply bool_decide_eq_true in Hhas.
  - destruct Hparent as [pn Hpn]. rewrite Hpn. simpl.
    destruct Hok as [Hroot Hnd Hdom Hids Hcount Hedges]. simpl in *.
    assert (Hnone : nm_entries m !! getPathId (cur ++ [b]) = None).
    { unfold nm_has in Hhas. apply bool_decide_eq_false in Hhas.
      by rewrite <- eq_None_not_Some in Hhas. }
    set (child := getPathId (cur ++ [b])) in *.
    set (node := mkNode child (cur ++ [b]) visited None).
    assert (Hkeep : forall k, is_Some (nm_get k m) ->
                              is_Some (nm_get k (nm_set child node m))).
    { intros k [n Hn]. unfold nm_get, nm_set in *. simpl.
      destruct (decide (child = k)) as [<-|Hne]; [congruence|].
      rewrite lookup_insert_ne by done. by eexists. }
    assert (Hchild : is_Some (nm_get child (nm_set child node m))).
    { unfold nm_get, nm_set. simpl. rewrite lookup_insert_eq. by eexists. }
    split_and!; [done| |done].
    split; simpl.
    + by apply Hkeep.
    + unfold nm_set. simpl. rewrite Hhas. apply NoDup_app.
      split_and!; [done| |apply NoDup_singleton].
      intros k Hk Hk'. apply list_elem_of_singleton in Hk'. subst k.
      apply Hdom in Hk. unfold nm_get in Hk. rewrite Hnone in Hk.
      by destruct Hk.
    + intros k. unfold nm_set at 1. simpl. rewrite Hhas.
      rewrite elem_of_app, list_elem_of_singleton, Hdom.
      unfold nm_get, nm_set. simpl.
      destruct (decide (child = k)) as [<-|Hne].
      * rewrite lookup_insert_eq. split; [by eexists|by right].
      * rewrite lookup_insert_ne by done. split; [|by left].
        intros [?|?]; [done|congruence].
    + intros k n. unfold nm_get, nm_set. simpl.
      destruct (decide (child = k)) as [<-|Hne].
      * rewrite lookup_insert_eq. by intros [= <-].
      * rewrite lookup_insert_ne by done. apply Hids.
    + unfold nm_set. simpl. rewrite Hhas, !length_app, Hcount. simpl. lia.
    + apply Forall_app. split.
      * eapply Forall_impl; [exact Hedges|]. intros ed.
        by apply EdgeOK_keeps.
      * apply Forall_singleton. exists cur. simpl.
        split_and!; [done..| |done]. apply Hkeep. by eexists.
Qed.

Lemma visit_fold_TreeOK utxos (xs : list (nat * bool)) cur m e :
  TreeOK (m, e) ->
  is_Some (nm_get (getPathId cur) m) ->
  let r := foldl (fun acc x => visitDirection utxos acc x.1 x.2)
                 (cur, m, e) xs in
  r.1.1 = cur ++ xs.*2 /\
  TreeOK (r.1.2, r.2) /\
  is_Some (nm_get (getPathId (cur ++ xs.*2)) r.1.2).
Proof.
  revert cur m e. induction xs as [|[d b] xs IH]; intros cur m e Hok Hcur.
  - simpl. by rewrite app_nil_r.
  - cbn [foldl]. rewrite fmap_cons. cbn [fst snd].
    destruct (visitDirection_TreeOK utxos cur m e d b Hok Hcur)
      as (Hc & Hok' & Hchild).
    destruct (visitDirection utxos (cur, m, e) d b) as [[cur' m'] e'].
    cbn [fst snd] in Hc, Hok', Hchild. subst cur'.
    replace (cur ++ b :: xs.*2) with ((cur ++ [b]) ++ xs.*2)
      by (by rewrite <- app_assoc).
    by apply IH.
Qed.

Lemma imap_pair_snd {A} (l : list A) : (imap pair l).*2 = l.
Proof.
  apply list_eq. intros i.
  rewrite list_lookup_fmap, list_lookup_imap. by destruct (l !! i).
Qed.

Lemma tracePath_TreeOK utxos p m e :
  TreeOK (m, e) ->
  TreeOK (tracePath utxos p m e) /\
  is_Some (nm_get (getPathId p) (tracePath utxos p m e).1).
Proof.
  intros Hok. unfold tracePath.
  destruct (visit_fold_TreeOK utxos (imap pair p) [] m e Hok (tree_root _ Hok))
    as (_ & Hok' & Hp).
  rewrite imap_pair_snd in Hp. simpl in Hp.
  by destruct (foldl _ _ _) as [[? ?] ?].
Qed.

Lemma replayStep_TreeOK cur utxos i step acc :
  TreeOK acc -> TreeOK (replayStep cur utxos i step acc).
Proof.
  intros Hok. unfold replayStep.
  destruct (tracePath_TreeOK utxos (path step) acc.1 acc.2) as [Hok' [n Hn]].
  { by destruct acc. }
  destruct (tracePath utxos (path step) acc.1 acc.2) as [m1 e1].
  simpl in Hn. rewrite Hn.
  destruct (updateNode_id cur i step n) as [Hid Hpath].
  by eapply TreeOK_update.
Qed.

Lemma initialTree_TreeOK : TreeOK initialTree.
Proof.
  assert (Horder : nm_order initialTree.1 = [getPathId []]) by reflexivity.
  assert (Hget : forall k,
            nm_get k initialTree.1 =
            if decide (getPathId [] = k) then Some rootNode else None).
  { intros k. unfold nm_get, initialTree, nm_set. simpl.
    rewrite lookup_insert. case_decide; [done|]. apply lookup_empty. }
  split.
  - rewrite Hget. by eexists.
  - rewrite Horder. apply NoDup_singleton.
  - intros k. rewrite Horder, Hget, list_elem_of_singleton.
    case_decide; (split; [|intros [? ?]]); try done; by eexists.
  - intros k n. rewrite Hget. case_decide; [|done]. by intros [= <-].
  - by rewrite Horder.
  - constructor.
Qed.

Lemma replayLoop_TreeOK stepList cur utxos n i acc acc' :
  replayLoop stepList cur utxos n i acc = Some acc' ->
  TreeOK acc -> TreeOK acc'.
Proof.
  revert i acc. induction n as [|n IH]; intros i acc Hloop Hok; simpl in *.
  - by injection Hloop as <-.
  - destruct (stepList !! i) as [step|]; [|done].
    eapply IH; [exact Hloop|]. by apply replayStep_TreeOK.
Qed.

Lemma nm_values_ids (m : NodeMap) (e : list TreeEdge) :
  TreeOK (m, e) -> node_id <$> nm_values m = nm_order m.
Proof.
  intros Hok. unfold nm_values.
  assert (Hall : Forall (fun k => exists n, nm_entries m !! k = Some n /\
                                            node_id n = k) (nm_order m)).
  { apply Forall_forall. intros k Hk.
    apply (tree_dom _ Hok) in Hk as [n Hn]. exists n. split; [done|].
    by apply (tree_ids _ Hok k n). }
  revert Hall. generalize (nm_order m). intros l.
  induction 1 as [|k l (n & Hn & Hid) _ IH]; csimpl; [done|].
  rewrite Hn. csimpl. by rewrite Hid, IH.
Qed.

Lemma buildTree_is_Some stepList cur utxos :
  is_Some (buildTree stepList cur utxos) <-> (cur < length stepList)%nat.
Proof.
  unfold buildTree. rewrite fmap_is_Some. split.
  - rewrite replay_unfold. intros [r Hr].
    destruct (replayLoop stepList cur utxos cur 0 initialTree); [|done].
    simpl in Hr. destruct (stepList !! cur) eqn:Hcur; [|done].
    by eapply lookup_lt_Some.
  - intros Hlt. apply replayLoop_defined. simpl. lia.
Qed.

(** The reconstruction is defined exactly for the cursors inside the trace:
    past the end, reading the step fails. *)
Theorem buildTree_defined_iff_cursor_in_range
    (stepList : list AlgorithmStep) (cur : nat) (utxos : list Utxo) :
  is_Some (buildTree stepList cur utxos) <-> (cur < length stepList)%nat.
Proof. apply buildTree_is_Some. Qed.

(** The value of the reconstruction is a tree.  There is one node more than
    there are edges; the node ids are distinct and each is the id of the
    node's path; the root is among the nodes; every edge joins the node of
    some path to the node of that path extended by the direction of the
    edge, and is named after the two. *)
Theorem buildTree_is_tree
    (stepList : list AlgorithmStep) (cur : nat) (utxos : list Utxo)
    (nodes : list TreeNode) (edges : list TreeEdge) :
  buildTree stepList cur utxos = Some (nodes, edges) ->
  length nodes = S (length edges) /\
  NoDup (node_id <$> nodes) /\
  getPathId [] ∈ node_id <$> nodes /\
  Forall (fun n => node_id n = getPathId (node_path n)) nodes /\
  Forall (fun ed =>
            exists p,
              source ed = getPathId p /\
              edge_target ed = getPathId (p ++ [direction ed]) /\
              edge_id ed = source ed +:+ "->" +:+ edge_target ed /\
              source ed ∈ node_id <$> nodes /\
              edge_target ed ∈ node_id <$> nodes) edges.
Proof.
  unfold buildTree, replay. intros Hb.
  destruct (replayLoop stepList cur utxos (S cur) 0 initialTree)
    as [[m e]|] eqn:Hloop; [|done].
  simpl in Hb. injection Hb as <- <-.
  pose proof (replayLoop_TreeOK _ _ _ _ _ _ _ Hloop initialTree_TreeOK) as Hok.
  pose proof (nm_values_ids m e Hok) as Hids.
  destruct Hok as [Hroot Hnd Hdom Hnodes Hcount Hedges]. simpl in *.
  split_and!.
  - by rewrite <- (length_fmap node_id), Hids.
  - by rewrite Hids.
  - rewrite Hids. by apply Hdom.
  - apply Forall_forall. intros n Hn. unfold nm_values in Hn.
    apply list_elem_of_omap in Hn as (k & _ & Hk).
    destruct (Hnodes k n Hk) as [-> ?]. done.
  - eapply Forall_impl; [exact Hedges|].
    intros ed (p & Hs & Ht & Hid & Hsrc & Htgt).
    exists p. rewrite Hids. split_and!; [done..| |]; by apply Hdom.
Qed.

Lemma buildTree_is_tree_witness :
  exists nodes edges,
    buildTree (sc_steps (generateScenario [60; 50; 25] 110 0)) 4
      (sc_utxos (generateScenario [60; 50; 25] 110 0)) = Some (nodes, edges) /\
    length nodes = 4%nat /\ length edges = 3%nat /\
    length nodes = S (length edges).
Proof.
  eexists _, _. split; [vm_compute; reflexivity|].
  split; [reflexivity|]. split; [reflexivity|].
  refine (proj1 (buildTree_is_tree
                   (sc_steps (generateScenario [60; 50; 25] 110 0)) 4
                   (sc_utxos (generateScenario [60; 50; 25] 110 0)) _ _ _)).
  vm_compute. reflexivity.
Defined.

(** ** The node of the cursor step *)

Lemma newStatus_cursor ty old :
  newStatus true ty old =
  if isPrune ty then pruned
  else if bool_decide (ty = SOLUTION) then solution else active.
Proof. done. Qed.

(** The node the cursor step points at takes its status from the kind of
    that step: [pruned] for the two prune kinds, [solution] for [SOLUTION],
    [active] for any other kind, whatever earlier steps left there. *)
Theorem cursor_node_status
    (stepList : list AlgorithmStep) (cur : nat) (utxos : list Utxo)
    (s : AlgorithmStep) :
  stepList !! cur = Some s ->
  nodeStatus stepList cur utxos (path s) =
  Some (if isPrune (type s) then pruned
        else if bool_decide (type s = SOLUTION) then solution else active).
Proof.
  intros Hs. rewrite nodeStatus_unfold, replay_unfold.
  destruct (replayLoop_defined stepList utxos cur cur 0 initialTree)
    as [A HA].
  { apply lookup_lt_Some in Hs. simpl. lia. }
  rewrite HA. simpl. rewrite Hs. simpl.
  pose proof (replayLoop_TreeOK _ _ _ _ _ _ _ HA initialTree_TreeOK) as Hok.
  rewrite replayStep_here_eq.
  destruct (tracePath_TreeOK utxos (path s) A.1 A.2) as [_ [n Hn]].
  { by destruct A. }
  rewrite Hn. simpl. by rewrite Nat.eqb_refl, newStatus_cursor.
Qed.

Lemma cursor_node_status_witness :
  nodeStatus (sc_steps (generateScenario [60; 50; 25] 110 0)) 4
    (sc_utxos (generateScenario [60; 50; 25] 110 0)) [true; false]
  = Some pruned.
Proof.
  eapply (cursor_node_status
            (sc_steps (generateScenario [60; 50; 25] 110 0)) 4
            (sc_utxos (generateScenario [60; 50; 25] 110 0))
            (mkStep 4 PRUNE_SUM 2 2 [0%nat] 60
               "Pruned: Current (60) + Remaining (25) < Target (110)" 0
               [true; false])).
  vm_compute. reflexivity.
Defined.

(** ** Which nodes can be active or pending *)

Lemma newStatus_passive_range ty old :
  newStatus false ty old <> active /\ newStatus false ty old <> pending.
Proof.
  unfold newStatus. destruct (isPrune ty); [done|].
  destruct (bool_decide _); [done|]. by destruct old.
Qed.

Lemma newStatus_cursor_range ty old :
  newStatus true ty old <> pending /\
  (newStatus true ty old = active -> isTerminal ty = false).
Proof.
  unfold newStatus, isTerminal. destruct (isPrune ty); [done|].
  by destruct (bool_decide _).
Qed.

Lemma replayStep_elsewhere_cases cur utxos i step acc p st :
  path step <> p ->
  statusAt (replayStep cur utxos i step acc).1 p = Some st ->
  statusAt acc.1 p = Some st \/ st = visited.
Proof.
  intros Hne Hst. destruct (decide (st = visited)) as [?|Hnv]; [by right|].
  left. by eapply replayStep_elsewhere_inv.
Qed.

Lemma replayStep_Quiet cur utxos i step acc :
  i <> cur -> Quiet acc.1 -> Quiet (replayStep cur utxos i step acc).1.
Proof.
  intros Hi Hq p st Hst. destruct (decide (path step = p)) as [<-|Hne].
  - apply replayStep_here in Hst as (old & -> & _).
    replace (i =? cur)%nat with false by (symmetry; by apply Nat.eqb_neq).
    destruct (newStatus_passive_range (type step) old). done.
  - apply replayStep_elsewhere_cases in Hst as [Hst| ->]; [|done..].
    by apply Hq.
Qed.

Lemma replayLoop_Quiet stepList cur utxos n i acc acc' :
  (i + n <= cur)%nat ->
  replayLoop stepList cur utxos n i acc = Some acc' ->
  Quiet acc.1 -> Quiet acc'.1.
Proof.
  revert i acc. induction n as [|n IH]; intros i acc Hcur Hloop Hq;
    simpl in *.
  - by injection Hloop as <-.
  - destruct (stepList !! i) as [step|]; [|done].
    eapply (IH (S i)); [lia|exact Hloop|].
    apply replayStep_Quiet; [lia|done].
Qed.

Lemma initialTree_Quiet : Quiet initialTree.1.
Proof.
  intros p st Hst. pose proof (initialTree_statusAt p st Hst) as ->.
  split; [done|]. intros _.
  unfold statusAt, initialTree, nm_get, nm_set in Hst. simpl in Hst.
  rewrite lookup_insert in Hst. case_decide as Heq.
  - symmetry. by apply (inj getPathId).
  - by rewrite lookup_empty in Hst.
Qed.

(** Only the node the cursor step points at can be [active], and then that
    step is neither a prune nor a solution; only the root can be
    [pending]. *)
Theorem active_and_pending_nodes
    (stepList : list AlgorithmStep) (cur : nat) (utxos : list Utxo)
    (p : list bool) (st : NodeStatus) :
  nodeStatus stepList cur utxos p = Some st ->
  (st = active ->
     exists s, stepList !! cur = Some s /\ path s = p /\
               isTerminal (type s) = false) /\
  (st = pending -> p = []).
Proof.
  rewrite nodeStatus_unfold, replay_unfold. intros Hst.
  destruct (replayLoop stepList cur utxos cur 0 initialTree) as [A|] eqn:HA;
    [|done].
  simpl in Hst. destruct (stepList !! cur) as [s|] eqn:Hs; [|done].
  simpl in Hst.
  pose proof (replayLoop_Quiet stepList cur utxos cur 0%nat initialTree A
                ltac:(lia) HA initialTree_Quiet) as Hq.
  destruct (decide (path s = p)) as [<-|Hne].
  - apply replayStep_here in Hst as (old & -> & _).
    rewrite Nat.eqb_refl.
    destruct (newStatus_cursor_range (type s) old) as [Hnp Hact].
    split; [|done]. intros Ha. exists s. split_and!; [done..|]. by apply Hact.
  - apply replayStep_elsewhere_cases in Hst as [Hst| ->]; [|done..].
    destruct (Hq p st Hst) as [Hna Hpend]. split; [done|]. done.
Qed.

Lemma active_and_pending_nodes_witness :
  exists s,
    sc_steps (generateScenario [60; 50; 25] 110 0) !! 3%nat = Some s /\
    path s = [true; false] /\ isTerminal (type s) = false.
Proof.
  refine (proj1 (active_and_pending_nodes
                   (sc_steps (generateScenario [60; 50; 25] 110 0)) 3
                   (sc_utxos (generateScenario [60; 50; 25] 110 0))
                   [true; false] active _) eq_refl).
  vm_compute. reflexivity.
Defined.

(** ** The lineage query across cursors *)

(** [isPrefix] decides the prefix relation on paths, so the length test
    that follows it in [getPathStatus] never changes the answer. *)
Theorem isPrefix_decides_prefix (p q : list bool) :
  (isPrefix p q = true <-> p `prefix_of` q) /\
  isPrefix p q && (length p <=? length q)%nat = isPrefix p q.
Proof.
  split.
  - by rewrite isPrefix_PathPrefix, PathPrefix_prefix_of.
  - destruct (isPrefix p q) eqn:Hpre; [|done]. simpl.
    apply isPrefix_PathPrefix in Hpre as [Hlen _]. by apply Nat.leb_le.
Qed.

(** Advancing the cursor never removes a highlight: the [best] answers do
    not depend on the cursor, and a [candidate] answer stays. *)
Theorem getPathStatus_cursor_monotone
    (bestPath : option (list bool)) (cands : list SolutionCandidate)
    (i j : nat) (p : list bool) :
  (i <= j)%nat ->
  (getPathStatus bestPath cands i p = best <->
   getPathStatus bestPath cands j p = best) /\
  (getPathStatus bestPath cands i p = candidate ->
   getPathStatus bestPath cands j p = candidate).
Proof.
  intros Hij. unfold getPathStatus.
  destruct (match bestPath with Some _ => _ | None => _ end); [done|].
  split.
  - destruct (scanCandidates_cases p
                (filter (fun c => (stepIndex c <= i)%nat) cands)) as [-> | ->],
             (scanCandidates_cases p
                (filter (fun c => (stepIndex c <= j)%nat) cands)) as [-> | ->];
      done.
  - rewrite !scanCandidates_candidate. intros (c & Hc & H).
    exists c. split; [|done].
    apply list_elem_of_filter in Hc as [? ?].
    apply list_elem_of_filter. split; [lia|done].
Qed.

Lemma getPathStatus_cursor_monotone_witness :
  getPathStatus None [mkCandidate [true; true] 2 110] 2 [true] = candidate /\
  getPathStatus None [mkCandidate [true; true] 2 110] 5 [true] = candidate.
Proof.
  split; [reflexivity|].
  refine (proj2 (getPathStatus_cursor_monotone None
                   [mkCandidate [true; true] 2 110] 2 5 [true] _) _).
  - lia.
  - reflexivity.
Defined.

(** At the cursor of a [SOLUTION] step of a generated trace, every node on
    the way from the root to the node of that step is highlighted. *)
Theorem solution_lineage_highlighted
    (utxoValues : list Z) (target tolerance : Z)
    (bestPath : option (list bool)) (i : nat) (s : AlgorithmStep)
    (p : list bool) :
  let sc := generateScenario utxoValues target tolerance in
  sc_steps sc !! i = Some s ->
  type s = SOLUTION ->
  p `prefix_of` path s ->
  getPathStatus bestPath (sc_candidates sc) i p <> none.
Proof.
  intros sc Hi Hty Hpre. subst sc.
  destruct (generateScenario_bookkeeping utxoValues target tolerance)
    as (e & fin & He & Hfin & Hidfin & _ & Hids & Hcands & _).
  rewrite He in Hi.
  apply lookup_snoc_Some in Hi as [[_ Hi]|[_ <-]]; [|congruence].
  assert (Hin : candidateOf s ∈
                  sc_candidates (generateScenario utxoValues target tolerance)).
  { rewrite Hcands. apply list_elem_of_fmap_2. apply list_elem_of_filter.
    split; [done|]. by eapply list_elem_of_lookup_2. }
  unfold getPathStatus.
  destruct (match bestPath with Some _ => _ | None => _ end); [done|].
  assert (scanCandidates p
            (filter (fun c => (stepIndex c <= i)%nat)
               (sc_candidates (generateScenario utxoValues target tolerance)))
          = candidate) as ->; [|done].
  apply scanCandidates_candidate. exists (candidateOf s). split_and!.
  - apply list_elem_of_filter. split; [|done]. simpl.
    by rewrite (Hids _ _ Hi).
  - simpl. by apply prefix_length.
  - by apply PathPrefix_prefix_of.
Qed.

Lemma solution_lineage_highlighted_witness :
  getPathStatus None (sc_candidates (generateScenario [60; 50; 25] 110 0))
    2 [true] <> none.
Proof.
  eapply (solution_lineage_highlighted [60; 50; 25] 110 0 None 2 _ [true]).
  - vm_compute. reflexivity.
  - reflexivity.
  - by exists [true].
Defined.

(** ** The playback controls *)

Section VisualizerFacts.

Variable scenario : Scenario.

Local Abbreviation InRange := (Visualizer.InRange scenario).
Local Abbreviation handle := (Visualizer.handle scenario).
Local Abbreviation stepCount := (Visualizer.stepCount scenario).

Lemma handle_InRange st ev :
  0 < stepCount -> InRange st -> InRange (handle st ev).
Proof.
  intros Hpos [Hlo Hhi]. unfold Visualizer.InRange in *.
  destruct ev; unfold Visualizer.handle, Visualizer.tick,
    Visualizer.handlePlayToggle, Visualizer.isLastStep; simpl;
    repeat (case_match; simpl); lia.
Qed.

Lemma run_InRange evs :
  0 < stepCount -> InRange (Visualizer.run scenario evs).
Proof.
  intros Hpos. unfold Visualizer.run.
  assert (InRange Visualizer.initial) as Hinit.
  { unfold Visualizer.InRange. simpl. lia. }
  revert Hinit. generalize Visualizer.initial.
  induction evs as [|ev evs IH]; intros st Hst; simpl; [done|].
  apply IH. by apply handle_InRange.
Qed.

Lemma ticks_reach_last_step (k : nat) st :
  InRange st -> Visualizer.isPlaying st = true ->
  Z.of_nat k = stepCount - 1 - Visualizer.stepIndex st ->
  foldl handle st (replicate k Visualizer.Tick) =
    Visualizer.mkPlayer (stepCount - 1) true /\
  handle (Visualizer.mkPlayer (stepCount - 1) true) Visualizer.Tick =
    Visualizer.mkPlayer (stepCount - 1) false.
Proof.
  intros Hr Hplay Hk. split.
  - revert st Hr Hplay Hk. induction k as [|k IH]; intros [i pl] Hr Hplay Hk;
      simpl in *.
    + subst pl. f_equal. lia.
    + subst pl. unfold Visualizer.tick. simpl.
      destruct (Z.leb_spec (stepCount - 1) i); [lia|].
      apply IH; [|done|simpl; lia].
      unfold Visualizer.InRange in *. simpl in *. lia.
  - unfold Visualizer.handle, Visualizer.tick. simpl.
    by rewrite Z.leb_refl.
Qed.

End VisualizerFacts.

(** Whatever the user does with the controls, the cursor stays inside the
    trace of a generated scenario: the current step is defined and the
    tree reconstruction does not fail. *)
Theorem playback_cursor_stays_in_trace
    (utxoValues : list Z) (target tolerance : Z)
    (evs : list Visualizer.Event) :
  let sc := generateScenario utxoValues target tolerance in
  let st := Visualizer.run sc evs in
  0 <= Visualizer.stepIndex st <= Z.of_nat (length (sc_steps sc)) - 1 /\
  is_Some (Visualizer.currentStep sc st) /\
  is_Some (Visualizer.treeView sc st).
Proof.
  intros sc st.
  assert (Hpos : 0 < Visualizer.stepCount sc).
  { unfold Visualizer.stepCount. subst sc.
    destruct (generateScenario_bookkeeping utxoValues target tolerance)
      as (e & fin & He & _).
    rewrite He, length_app. simpl. lia. }
  pose proof (run_InRange sc evs Hpos) as Hr. fold st in Hr.
  unfold Visualizer.InRange, Visualizer.stepCount in Hr.
  split; [done|].
  assert (Hlt : (Z.to_nat (Visualizer.stepIndex st) < length (sc_steps sc))%nat)
    by lia.
  split.
  - unfold Visualizer.currentStep.
    destruct (Z.ltb_spec (Visualizer.stepIndex st) 0); [lia|].
    by apply lookup_lt_is_Some_2.
  - unfold Visualizer.treeView. by apply buildTree_is_Some.
Qed.

(** Playing from a cursor inside the trace: after as many ticks as there
    are steps left the cursor is on the last step, still playing, and the
    next tick stops the playback there. *)
Theorem playback_reaches_last_step
    (scenario : Scenario) (st : Visualizer.State) :
  Visualizer.InRange scenario st ->
  Visualizer.isPlaying st = true ->
  let last := Visualizer.stepCount scenario - 1 in
  foldl (Visualizer.handle scenario) st
    (replicate (Z.to_nat (last - Visualizer.stepIndex st)) Visualizer.Tick)
    = Visualizer.mkPlayer last true /\
  Visualizer.handle scenario (Visualizer.mkPlayer last true) Visualizer.Tick
    = Visualizer.mkPlayer last false.
Proof.
  intros Hr Hplay last. apply ticks_reach_last_step; [done..|].
  unfold Visualizer.InRange in Hr. subst last. lia.
Qed.

Lemma playback_reaches_last_step_witness :
  foldl (Visualizer.handle (generateScenario [60; 50; 25] 110 0))
    (Visualizer.mkPlayer 2 true) (replicate 5 Visualizer.Tick)
    = Visualizer.mkPlayer 7 true /\
  Visualizer.handle (generateScenario [60; 50; 25] 110 0)
    (Visualizer.mkPlayer 7 true) Visualizer.Tick
    = Visualizer.mkPlayer 7 false.
Proof.
  apply (playback_reaches_last_step (generateScenario [60; 50; 25] 110 0)
           (Visualizer.mkPlayer 2 true)).
  - vm_compute. split; discriminate.
  - reflexivity.
Defined.

(** A node is drawn on the best lineage exactly when the cursor is on the
    last step, the outcome is a success, and the node path is a prefix of
    the best solution path. *)
Theorem best_lineage_shown_only_on_last_step
    (scenario : Scenario) (st : Visualizer.State) (p : list bool) :
  Visualizer.treePathStatus scenario st p = best <->
  Visualizer.stepIndex st = Z.of_nat (length (sc_steps scenario)) - 1 /\
  outcome scenario = success /\
  exists bp, sc_bestSolutionPath scenario = Some bp /\ p `prefix_of` bp.
Proof.
  unfold Visualizer.treePathStatus, getPathStatus.
  pose proof (best_test_onBestLineage (Visualizer.treeBestPath scenario st) p)
    as Hbest.
  assert (Hon : onBestLineage (Visualizer.treeBestPath scenario st) p <->
    Visualizer.stepIndex st = Z.of_nat (length (sc_steps scenario)) - 1 /\
    outcome scenario = success /\
    exists bp, sc_bestSolutionPath scenario = Some bp /\ p `prefix_of` bp).
  { unfold onBestLineage, Visualizer.treeBestPath, Visualizer.isLastStep,
      Visualizer.stepCount.
    destruct (Z.eqb_spec (Visualizer.stepIndex st)
                (Z.of_nat (length (sc_steps scenario)) - 1)) as [Heq|Hne];
      simpl.
    - case_bool_decide as Hout; simpl.
      + split.
        * intros (b & Hb & _ & Hpre). split_and!; [done..|].
          exists b. by rewrite <- PathPrefix_prefix_of.
        * intros (_ & _ & b & Hb & Hpre). exists b. split_and!; [done| |].
          -- by apply prefix_length.
          -- by apply PathPrefix_prefix_of.
      + split; [by intros (b & ? & _)|]. by intros (_ & ? & _).
    - split; [by intros (b & ? & _)|]. by intros (? & _). }
  rewrite <- Hon, <- Hbest.
  destruct (match Visualizer.treeBestPath scenario st with
            | Some _ => _ | None => _ end); [done|].
  match goal with
  | |- context [scanCandidates ?a ?l] =>
      destruct (scanCandidates_cases a l) as [-> | ->]
  end; done.
Qed.

(** * Edge cases of the search *)

(** When the empty selection already meets the solution test (a target of
    0, or a target within the tolerance below 0), the search records the
    root as the only candidate and ends at once, whatever the values. *)
Theorem root_solution_ends_search
    (utxoValues : list Z) (target tolerance : Z) :
  let sc := generateScenario utxoValues target tolerance in
  solutionCondition target tolerance 0 ->
  (fun s => (type s, path s, currentSelection s, currentSum s)) <$> sc_steps sc
    = [ (SOLUTION, [], [], 0); (COMPLETE, [], [], 0) ] /\
  outcome sc = success /\
  sc_bestSolutionPath sc = Some [] /\
  sc_bestSolutionIndices sc = Some [] /\
  sc_candidates sc = [ mkCandidate [] 0 0 ].
Proof.
  intros sc Hsol. subst sc. apply isSolution_true in Hsol.
  pose proof (backtrack_Run (prepareUtxos utxoValues) target tolerance
                0 [] 0 0 [] initialState) as Hrun.
  unfold generateScenario, toScenario, runSearch.
  remember (backtrack (prepareUtxos utxoValues) target tolerance
              0 [] 0 0 [] initialState) as st' eqn:Hst.
  clear Hst. inversion Hrun; subst; try congruence. by simpl.
Qed.

Lemma root_solution_ends_search_witness :
  (fun s => (type s, path s, currentSelection s, currentSum s)) <$>
    sc_steps (generateScenario [60; 50] 0 0)
    = [ (SOLUTION, [], [], 0); (COMPLETE, [], [], 0) ] /\
  outcome (generateScenario [60; 50] 0 0) = success /\
  sc_bestSolutionPath (generateScenario [60; 50] 0 0) = Some [] /\
  sc_bestSolutionIndices (generateScenario [60; 50] 0 0) = Some [] /\
  sc_candidates (generateScenario [60; 50] 0 0) = [ mkCandidate [] 0 0 ].
Proof.
  apply (root_solution_ends_search [60; 50] 0 0).
  left. reflexivity.
Defined.

(** With no values at all and an empty selection that is no solution, the
    search records one [BACKTRACK] step at the root and fails. *)
Theorem empty_values_fail_at_root (target tolerance : Z) :
  let sc := generateScenario [] target tolerance in
  ~ solutionCondition target tolerance 0 ->
  (fun s => (type s, path s, currentSelection s, currentSum s)) <$> sc_steps sc
    = [ (BACKTRACK, [], [], 0); (COMPLETE, [], [], 0) ] /\
  outcome sc = failure /\
  sc_bestSolutionPath sc = None /\
  sc_bestSolutionIndices sc = None /\
  sc_candidates sc = [].
Proof.
  intros sc Hsol. subst sc.
  assert (isSolution target tolerance 0 = false) as Hfalse.
  { destruct (isSolution target tolerance 0) eqn:H; [|done].
    by apply isSolution_true in H. }
  pose proof (backtrack_Run (prepareUtxos []) target tolerance
                0 [] 0 0 [] initialState) as Hrun.
  unfold generateScenario, toScenario, runSearch.
  remember (backtrack (prepareUtxos []) target tolerance
              0 [] 0 0 [] initialState) as st' eqn:Hst.
  clear Hst.
  inversion Hrun; subst; try congruence; try by simpl.
  all: match goal with H : (_ < length (prepareUtxos []))%nat |- _ =>
         by inversion H end.
Qed.

Lemma empty_values_fail_at_root_witness :
  (fun s => (type s, path s, currentSelection s, currentSum s)) <$>
    sc_steps (generateScenario [] 5 0)
    = [ (BACKTRACK, [], [], 0); (COMPLETE, [], [], 0) ] /\
  outcome (generateScenario [] 5 0) = failure /\
  sc_bestSolutionPath (generateScenario [] 5 0) = None /\
  sc_bestSolutionIndices (generateScenario [] 5 0) = None /\
  sc_candidates (generateScenario [] 5 0) = [].
Proof.
  apply (empty_values_fail_at_root 5 0).
  unfold solutionCondition. lia.
Defined.

(** * The two embeddings side by side *)

(** Inside the exact range the two embeddings record the same steps, here
    for the values [60, 50, 25] and the target 110. *)
Lemma exact_and_binary64_agree_on_example3 :
  Binary64.view <$>
    Binary64.sc_steps (Binary64.generateScenarioZ [60; 50; 25] 110 0) =
  (fun s => (type s, path s, currentSelection s,
             Some (currentSum s), Some (remainingValue s))) <$>
    sc_steps (generateScenario [60; 50; 25] 110 0).
Proof. vm_compute. reflexivity. Qed.

(** Outside the exact range the two part: for the values [2^53, 1, 1] and
    the target [2^53 + 2] the remaining sum at the root rounds to [2^53]
    and the program prunes the root, while the exact sums reach the
    target. *)
Lemma exact_and_binary64_part_beyond_range :
  ~ ExactRange [9007199254740992; 1; 1] 9007199254740994 0 /\
  (fun s => (Binary64.type s, Binary64.path s)) <$>
    Binary64.sc_steps
      (Binary64.generateScenarioZ [9007199254740992; 1; 1]
         9007199254740994 0) = [ (PRUNE_SUM, []); (COMPLETE, []) ] /\
  Binary64.outcome
    (Binary64.generateScenarioZ [9007199254740992; 1; 1] 9007199254740994 0)
    = failure /\
  outcome (generateScenario [9007199254740992; 1; 1] 9007199254740994 0)
    = success.
Proof.
  split; [unfold ExactRange; simpl; lia|]. vm_compute. done.
Qed.
